(** * Travel-Planner backend (src/backend/server.py): a shallow embedding

    The service is a FastAPI application over three document collections
    (users, trips, itineraries).  The collections are modelled as lists of
    records in insertion order, the handlers as functions from a store to a
    response and a new store, and the external libraries the handlers call
    (PyJWT, passlib, json, the bearer scheme of the web framework, the text
    generator) as parameters of one section. *)

From Stdlib Require Import ZArith Lia Ascii String.
From stdpp Require Import base option list gmap strings countable.

Open Scope Z_scope.

(** ** Python strings *)

(** A Python [str] is a sequence of Unicode code points. *)
Definition pystr := list N.

(** The code points of a source literal (ASCII). *)
Definition lit (s : string) : pystr :=
  N_of_ascii <$> list_ascii_of_string s.

(** [str.isspace] on one code point: the white-space table of CPython. *)
Definition isspace (c : N) : bool :=
  ((9 <=? c) && (c <=? 13) || (28 <=? c) && (c <=? 32)
   || (c =? 133) || (c =? 160) || (c =? 5760)
   || (8192 <=? c) && (c <=? 8202)
   || (c =? 8232) || (c =? 8233) || (c =? 8239) || (c =? 8287)
   || (c =? 12288))%N.

Fixpoint lstrip_with (P : N -> bool) (s : pystr) : pystr :=
  match s with
  | [] => []
  | c :: s' => if P c then lstrip_with P s' else s
  end.

Definition rstrip_with (P : N -> bool) (s : pystr) : pystr :=
  reverse (lstrip_with P (reverse s)).

Definition strip_with (P : N -> bool) (s : pystr) : pystr :=
  rstrip_with P (lstrip_with P s).

(** [s.strip()] *)
Definition strip (s : pystr) : pystr := strip_with isspace s.

(** [s.startswith(p)] and [s.endswith(p)] *)
Definition startswith (p s : pystr) : bool := bool_decide (p `prefix_of` s).
Definition endswith (p s : pystr) : bool := bool_decide (p `suffix_of` s).

(** [s[n:]] and [s[:-n]] *)
Definition slice_from (n : nat) (s : pystr) : pystr := drop n s.
Definition slice_to_minus (n : nat) (s : pystr) : pystr :=
  take (length s - n) s.

(** ** JSON values ([json.loads] results) *)

#[local] Set Warnings "-register-all".
Inductive jvalue :=
| JNull
| JBool (b : bool)
| JInt (z : Z)
| JFloat (repr : pystr)
| JString (s : pystr)
| JArray (items : list jvalue)
| JObject (members : list (pystr * jvalue)).

(** The white space [json.loads] skips around a document. *)
Definition json_ws (c : N) : bool :=
  ((c =? 32) || (c =? 9) || (c =? 10) || (c =? 13))%N.

Definition backtick : N := 96%N.
Definition newline : N := 10%N.

(** ** Failures

    A handler fails by raising [HTTPException]; request validation by the
    framework answers 422; any other exception that leaves a handler is
    answered with 500 by the framework. *)

Inductive failure :=
| HTTPException (status_code : Z) (detail : pystr)
| RequestValidationError
| UnhandledException (name : pystr).

Definition http_status (f : failure) : Z :=
  match f with
  | HTTPException c _ => c
  | RequestValidationError => 422
  | UnhandledException _ => 500
  end.

(** A small error monad: [inl] is the raised failure. *)
Definition result (E A : Type) : Type := E + A.
Definition ok {E A} (a : A) : result E A := inr a.
Definition raise {E A} (e : E) : result E A := inl e.
Definition bind {E A B} (m : result E A) (k : A -> result E B) : result E B :=
  match m with
  | inl e => inl e
  | inr a => k a
  end.

Declare Scope result_scope.
Delimit Scope result_scope with result.
Notation "'let*' x ':=' m 'in' k" := (bind m (fun x => k))
  (at level 10, x pattern, m at level 100, k at level 200) : result_scope.
Open Scope result_scope.

(** ** Records of the data model (the pydantic models) *)

Record User := mkUser {
  u_id : pystr;
  u_email : pystr;
  u_name : pystr;
  u_password_hash : pystr;
  u_created_at : Z
}.

Record UserRegister := mkUserRegister {
  reg_email : pystr;
  reg_name : pystr;
  reg_password : pystr
}.

Record UserLogin := mkUserLogin {
  login_email : pystr;
  login_password : pystr
}.

Inductive TripType := friends | family | solo | couple.
Inductive TripVibe :=
  relaxing | adventurous | party | cultural | nature | mix.
Inductive HecticLevel :=
  very_relaxed | moderately_relaxed | moderate | medium_to_high | very_hectic.
Inductive PlacesPreference := mainstream | hidden_gems | balanced.

Record TripCriteria := mkTripCriteria {
  t_id : pystr;
  t_user_id : pystr;
  t_location : pystr;
  t_time_of_arrival : pystr;
  t_time_of_departure : pystr;
  t_location_of_stay : pystr;
  t_check_in_datetime : pystr;
  t_check_out_datetime : pystr;
  t_number_of_days : Z;
  t_trip_type : TripType;
  t_trip_vibe : TripVibe;
  t_hectic_level : HecticLevel;
  t_places_preference : PlacesPreference;
  t_created_at : Z
}.

Record TripCriteriaCreate := mkTripCriteriaCreate {
  c_location : pystr;
  c_time_of_arrival : pystr;
  c_time_of_departure : pystr;
  c_location_of_stay : pystr;
  c_check_in_datetime : pystr;
  c_check_out_datetime : pystr;
  c_number_of_days : Z;
  c_trip_type : TripType;
  c_trip_vibe : TripVibe;
  c_hectic_level : HecticLevel;
  c_places_preference : PlacesPreference
}.

Record Itinerary := mkItinerary {
  i_id : pystr;
  i_trip_id : pystr;
  i_user_id : pystr;
  i_itinerary_data : list (pystr * jvalue);
  i_created_at : Z
}.

(** The public view of a user, [{'id', 'email', 'name'}]. *)
Record UserView := mkUserView {
  v_id : pystr;
  v_email : pystr;
  v_name : pystr
}.

Record TokenResponse := mkTokenResponse {
  token : pystr;
  user : UserView
}.

(** ** The body of POST /trips as it arrives

    The text fields are present strings; [b_number_of_days] is the integer
    the [int] validator of the model reads from the submitted value, [None]
    when it reads none; [b_extra] holds the members the model does not
    declare (pydantic ignores them). *)
Record TripBody := mkTripBody {
  b_location : pystr;
  b_time_of_arrival : pystr;
  b_time_of_departure : pystr;
  b_location_of_stay : pystr;
  b_check_in_datetime : pystr;
  b_check_out_datetime : pystr;
  b_number_of_days : option Z;
  b_trip_type : pystr;
  b_trip_vibe : pystr;
  b_hectic_level : pystr;
  b_places_preference : pystr;
  b_extra : list (pystr * jvalue)
}.

(** [Literal[...]] validators: the submitted string must be one of the
    listed literals. *)
Definition literal {A} (table : list (string * A)) (s : pystr) : option A :=
  snd <$> List.find (fun e => bool_decide (lit (fst e) = s)) table.

Definition trip_type_table : list (string * TripType) :=
  [("friends", friends); ("family", family); ("solo", solo);
   ("couple", couple)]%string.

Definition trip_vibe_table : list (string * TripVibe) :=
  [("relaxing", relaxing); ("adventurous", adventurous); ("party", party);
   ("cultural", cultural); ("nature", nature); ("mix", mix)]%string.

Definition hectic_level_table : list (string * HecticLevel) :=
  [("very_relaxed", very_relaxed); ("moderately_relaxed", moderately_relaxed);
   ("moderate", moderate); ("medium_to_high", medium_to_high);
   ("very_hectic", very_hectic)]%string.

Definition places_preference_table : list (string * PlacesPreference) :=
  [("mainstream", mainstream); ("hidden_gems", hidden_gems);
   ("balanced", balanced)]%string.

Definition trip_type_literal : pystr -> option TripType :=
  literal trip_type_table.
Definition trip_vibe_literal : pystr -> option TripVibe :=
  literal trip_vibe_table.
Definition hectic_level_literal : pystr -> option HecticLevel :=
  literal hectic_level_table.
Definition places_preference_literal : pystr -> option PlacesPreference :=
  literal places_preference_table.

Definition or_422 {A} (o : option A) : result failure A :=
  match o with
  | Some a => ok a
  | None => raise RequestValidationError
  end.

(** Validation of the body against [TripCriteriaCreate] (lines 70-81). *)
Definition validate_TripCriteriaCreate (b : TripBody)
  : result failure TripCriteriaCreate :=
  let* n := or_422 (b_number_of_days b) in
  let* ty := or_422 (trip_type_literal (b_trip_type b)) in
  let* vibe := or_422 (trip_vibe_literal (b_trip_vibe b)) in
  let* hectic := or_422 (hectic_level_literal (b_hectic_level b)) in
  let* places := or_422 (places_preference_literal (b_places_preference b)) in
  ok {| c_location := b_location b;
        c_time_of_arrival := b_time_of_arrival b;
        c_time_of_departure := b_time_of_departure b;
        c_location_of_stay := b_location_of_stay b;
        c_check_in_datetime := b_check_in_datetime b;
        c_check_out_datetime := b_check_out_datetime b;
        c_number_of_days := n;
        c_trip_type := ty;
        c_trip_vibe := vibe;
        c_hectic_level := hectic;
        c_places_preference := places |}.

(** ** The document store *)

Record db := mkDb {
  users : list User;
  trips : list TripCriteria;
  itineraries : list Itinerary
}.

Definition empty_db : db := mkDb [] [] [].

(** [collection.find_one(filter)]: the first matching document. *)
Definition find_one {A} (matches : A -> bool) (coll : list A) : option A :=
  List.find matches coll.

(** [collection.find(filter).to_list(n)]: the first [n] matching documents. *)
Definition find_to_list {A} (matches : A -> bool) (n : nat) (coll : list A)
  : list A :=
  take n (List.filter matches coll).

(** [collection.insert_one(doc)] *)
Definition insert_one {A} (doc : A) (coll : list A) : list A := coll ++ [doc].

Definition str_eq (a b : pystr) : bool := bool_decide (a = b).

(** ** Token payloads *)

Inductive claim :=
| ClaimStr (s : pystr)
| ClaimInt (z : Z).

Inductive jwt_outcome :=
| Decoded (payload : gmap string claim)
| ExpiredSignatureError
| InvalidTokenError.

(** What a query [{'id': v}] matches: the users whose id is the string [v]. *)
Definition claim_matches (v : claim) (s : pystr) : bool :=
  match v with
  | ClaimStr s' => str_eq s' s
  | ClaimInt _ => false
  end.

(** ** Requests and responses *)

Record Generated := mkGenerated {
  g_id : pystr;
  g_trip_id : pystr;
  g_itinerary : jvalue
}.

(** One request to the service, with what the handler draws from its
    environment while serving it (fresh identifiers, the salt, what the
    text generator does: [inr reply], or [inl] the message of the
    exception it raises). *)
Inductive request :=
| PostRegister (user_data : UserRegister) (new_id salt : pystr)
| PostLogin (credentials : UserLogin)
| GetMe (authorization : option pystr)
| PostTrips (authorization : option pystr) (body : TripBody)
            (new_id : pystr)
| GetTrips (authorization : option pystr)
| PostGenerateItinerary (authorization : option pystr) (trip_id : pystr)
                        (new_id : pystr) (llm : result pystr pystr)
| GetItinerary (authorization : option pystr) (trip_id : pystr).

Inductive response :=
| RToken (r : TokenResponse)
| RUser (v : UserView)
| RTrip (t : TripCriteria)
| RTrips (l : list TripCriteria)
| RGenerated (g : Generated)
| RItinerary (i : Itinerary).

(** A document handed to [insert_one]. *)
Inductive document :=
| UserDoc (u : User)
| TripDoc (t : TripCriteria)
| ItineraryDoc (i : Itinerary).

(** ** What the service is linked against

    The process configuration and the libraries the handlers call. *)
Class Platform := {
  (** [os.environ], read once at start-up *)
  env_JWT_SECRET : option pystr;
  env_JWT_ALGORITHM : option pystr;
  env_JWT_EXPIRATION_HOURS : option Z;
  (** passlib: [pwd_context.hash] (salted, so it takes the salt it draws)
      and [pwd_context.verify]; either may raise on the password it is
      given ([inl] the message of the exception) *)
  pwd_context_hash : pystr -> pystr -> result pystr pystr;
  pwd_context_verify : pystr -> pystr -> result pystr bool;
  (** PyJWT: [jwt.encode payload key algorithm] and, at a given clock
      reading, [jwt.decode token key algorithms] *)
  jwt_encode : gmap string claim -> pystr -> pystr -> pystr;
  jwt_decode : Z -> pystr -> pystr -> list pystr -> jwt_outcome;
  (** [json.loads]: the parsed value, or the message of the
      [JSONDecodeError] *)
  json_loads : pystr -> result pystr jvalue;
  (** the [HTTPBearer()] dependency of the framework: from the
      Authorization header of the request (if any) to the bearer
      credentials, or the framework's own rejection *)
  security : option pystr -> result failure pystr;
  (** the message of pydantic's error for an [itinerary_data] that is not
      a [dict] *)
  dict_type_error : jvalue -> pystr;
  (** the driver of the document store: the message of the exception
      [insert_one] raises while encoding the document, if it raises (an
      integer beyond 8 bytes, say) *)
  bson_error : document -> option pystr;
  (** the framework rendering a handler's return value as JSON: the
      message of the exception it raises, if it raises (a float that is
      infinite or no number, say) *)
  render_error : jvalue -> option pystr
}.

(** ** The service *)

Section Service.

Context `{Platform}.

Definition JWT_SECRET : pystr :=
  default (lit "travel_planner_secret_key") env_JWT_SECRET.
Definition JWT_ALGORITHM : pystr :=
  default (lit "HS256") env_JWT_ALGORITHM.
Definition JWT_EXPIRATION_HOURS : Z :=
  default 720 env_JWT_EXPIRATION_HOURS.

Definition hash_password (salt password : pystr) : result pystr pystr :=
  pwd_context_hash salt password.

Definition verify_password (plain_password hashed_password : pystr)
  : result pystr bool :=
  pwd_context_verify plain_password hashed_password.

(** An exception no handler catches: the framework answers 500. *)
Definition uncaught {A} (m : result pystr A) : result failure A :=
  match m with
  | inl e => inl (UnhandledException e)
  | inr a => inr a
  end.

(** [await collection.insert_one(doc)], as far as it can raise. *)
Definition inserting (doc : document) : result pystr unit :=
  match bson_error doc with
  | Some e => inl e
  | None => inr tt
  end.

(** The framework rendering the returned value [a], whose JSON part is
    [v]. *)
Definition rendered {A} (v : jvalue) (a : A) : result failure A :=
  match render_error v with
  | Some e => inl (UnhandledException e)
  | None => inr a
  end.

(** Times are whole seconds since the epoch, the resolution at which
    the expiration is written into a token. *)
Definition timedelta_hours (h : Z) : Z := h * 3600.

Definition create_jwt_token (now : Z) (id email : pystr) : pystr :=
  let payload : gmap string claim :=
    <["user_id" := ClaimStr id]>
      (<["email" := ClaimStr email]>
         (<["exp" := ClaimInt (now + timedelta_hours JWT_EXPIRATION_HOURS)]>
            ∅)) in
  jwt_encode payload JWT_SECRET JWT_ALGORITHM.

Definition decode_jwt_token (now : Z) (token : pystr)
  : result failure (gmap string claim) :=
  match jwt_decode now token JWT_SECRET [JWT_ALGORITHM] with
  | Decoded payload => ok payload
  | ExpiredSignatureError =>
      raise (HTTPException 401 (lit "Token has expired"))
  | InvalidTokenError => raise (HTTPException 401 (lit "Invalid token"))
  end.

(** [payload['user_id']] raises [KeyError] when the key is absent. *)
Definition get_current_user (now : Z) (token : pystr) (d : db)
  : result failure User :=
  let* payload := decode_jwt_token now token in
  match payload !! "user_id"%string with
  | None => raise (UnhandledException (lit "KeyError"))
  | Some uid =>
      match find_one (fun u => claim_matches uid (u_id u)) (users d) with
      | None => raise (HTTPException 401 (lit "User not found"))
      | Some user => ok user
      end
  end.

Definition public_view (id email name : pystr) : UserView :=
  {| v_id := id; v_email := email; v_name := name |}.

(** [hash_password] and [insert_one] are called outside any [try]: an
    exception of either leaves the handler and nothing is stored. *)
Definition register (now : Z) (new_id salt : pystr)
    (user_data : UserRegister) (d : db)
  : result failure TokenResponse * db :=
  match find_one (fun u => str_eq (u_email u) (reg_email user_data))
                 (users d) with
  | Some _ =>
      (raise (HTTPException 400 (lit "Email already registered")), d)
  | None =>
      match hash_password salt (reg_password user_data) with
      | inl e => (raise (UnhandledException e), d)
      | inr password_hash =>
          let user_obj :=
            {| u_id := new_id;
               u_email := reg_email user_data;
               u_name := reg_name user_data;
               u_password_hash := password_hash;
               u_created_at := now |} in
          match inserting (UserDoc user_obj) with
          | inl e => (raise (UnhandledException e), d)
          | inr _ =>
              let d' := {| users := insert_one user_obj (users d);
                           trips := trips d;
                           itineraries := itineraries d |} in
              let token :=
                create_jwt_token now (u_id user_obj) (u_email user_obj) in
              (ok {| token := token;
                     user := public_view (u_id user_obj) (u_email user_obj)
                                         (u_name user_obj) |}, d')
          end
      end
  end.

(** [verify_password] is called outside any [try]. *)
Definition login (now : Z) (credentials : UserLogin) (d : db)
  : result failure TokenResponse :=
  match find_one (fun u => str_eq (u_email u) (login_email credentials))
                 (users d) with
  | None => raise (HTTPException 401 (lit "Invalid email or password"))
  | Some user =>
      let* verified :=
        uncaught (verify_password (login_password credentials)
                                  (u_password_hash user)) in
      if negb verified
      then raise (HTTPException 401 (lit "Invalid email or password"))
      else
        let token := create_jwt_token now (u_id user) (u_email user) in
        ok {| token := token;
              user := public_view (u_id user) (u_email user) (u_name user) |}
  end.

Definition get_me (current_user : User) : UserView :=
  public_view (u_id current_user) (u_email current_user)
              (u_name current_user).

(** [insert_one] is called outside any [try]. *)
Definition create_trip (now : Z) (new_id : pystr)
    (trip_data : TripCriteriaCreate) (current_user : User) (d : db)
  : result failure TripCriteria * db :=
  let trip_obj :=
    {| t_id := new_id;
       t_user_id := u_id current_user;
       t_location := c_location trip_data;
       t_time_of_arrival := c_time_of_arrival trip_data;
       t_time_of_departure := c_time_of_departure trip_data;
       t_location_of_stay := c_location_of_stay trip_data;
       t_check_in_datetime := c_check_in_datetime trip_data;
       t_check_out_datetime := c_check_out_datetime trip_data;
       t_number_of_days := c_number_of_days trip_data;
       t_trip_type := c_trip_type trip_data;
       t_trip_vibe := c_trip_vibe trip_data;
       t_hectic_level := c_hectic_level trip_data;
       t_places_preference := c_places_preference trip_data;
       t_created_at := now |} in
  match inserting (TripDoc trip_obj) with
  | inl e => (raise (UnhandledException e), d)
  | inr _ =>
      (ok trip_obj, {| users := users d;
                       trips := insert_one trip_obj (trips d);
                       itineraries := itineraries d |})
  end.

(** [created_at] is kept as a time; the loop over the found trips, which
    turns its stored ISO text back into a [datetime], is the identity
    here. *)
Definition get_trips (current_user : User) (d : db) : list TripCriteria :=
  find_to_list (fun t => str_eq (t_user_id t) (u_id current_user)) 100
               (trips d).

(** *** The two-stage parse of the generator's reply (lines 269-279) *)

Definition fence_json : pystr := lit "```json".
Definition fence : pystr := lit "```".

(** The [except json.JSONDecodeError] branch up to its last
    [.strip()]. *)
Definition strip_code_fence (response : pystr) : pystr :=
  let cleaned_response := strip response in
  let cleaned_response :=
    if startswith fence_json cleaned_response
    then slice_from 7 cleaned_response else cleaned_response in
  let cleaned_response :=
    if startswith fence cleaned_response
    then slice_from 3 cleaned_response else cleaned_response in
  let cleaned_response :=
    if endswith fence cleaned_response
    then slice_to_minus 3 cleaned_response else cleaned_response in
  strip cleaned_response.

Definition parse_response (response : pystr) : result pystr jvalue :=
  match json_loads response with
  | inr itinerary_data => ok itinerary_data
  | inl _ => json_loads (strip_code_fence response)
  end.

(** [Itinerary(trip_id=..., user_id=..., itinerary_data=...)]: the field
    is declared [dict], so any other JSON value is a validation error. *)
Definition new_Itinerary (new_id : pystr) (now : Z) (trip_id user_id : pystr)
    (itinerary_data : jvalue) : result pystr Itinerary :=
  match itinerary_data with
  | JObject members =>
      ok {| i_id := new_id;
            i_trip_id := trip_id;
            i_user_id := user_id;
            i_itinerary_data := members;
            i_created_at := now |}
  | other => raise (dict_type_error other)
  end.

Definition generation_failed (e : pystr) : failure :=
  HTTPException 500 (lit "Failed to generate itinerary: " ++ e).

(** [llm] is what setting up the chat and [chat.send_message(prompt)] do
    on this call: [inr] the reply, or [inl] the [str(e)] of the exception
    raised.  The prompt is a text built from the fields of the trip and
    is part of that call.  Exceptions inside the [try], that of
    [insert_one] included, are carried by their [str(e)]. *)
Definition generate_itinerary (now : Z) (new_id : pystr)
    (llm : result pystr pystr) (trip_id : pystr) (current_user : User)
    (d : db) : result failure Generated * db :=
  match find_one (fun t => str_eq (t_id t) trip_id
                           && str_eq (t_user_id t) (u_id current_user))
                 (trips d) with
  | None => (raise (HTTPException 404 (lit "Trip not found")), d)
  | Some trip =>
      let attempt :=
        let* response := llm in
        let* itinerary_data := parse_response response in
        let* itinerary_obj :=
          new_Itinerary new_id now trip_id (u_id current_user)
                        itinerary_data in
        let* _ := inserting (ItineraryDoc itinerary_obj) in
        ok (itinerary_obj, itinerary_data) in
      match attempt with
      | inl e => (raise (generation_failed e), d)
      | inr (itinerary_obj, itinerary_data) =>
          (ok {| g_id := i_id itinerary_obj;
                 g_trip_id := trip_id;
                 g_itinerary := itinerary_data |},
           {| users := users d;
              trips := trips d;
              itineraries := insert_one itinerary_obj (itineraries d) |})
      end
  end.

Definition get_itinerary (trip_id : pystr) (current_user : User) (d : db)
  : result failure Itinerary :=
  match find_one (fun i => str_eq (i_trip_id i) trip_id
                           && str_eq (i_user_id i) (u_id current_user))
                 (itineraries d) with
  | None => raise (HTTPException 404 (lit "Itinerary not found"))
  | Some itinerary => ok itinerary
  end.

(** *** The routes *)

(** [Depends(get_current_user)] over [Depends(security)]. *)
Definition authenticate (now : Z) (authorization : option pystr) (d : db)
  : result failure User :=
  let* token := security authorization in
  get_current_user now token d.

Definition answer {A} (wrap : A -> response) (r : result failure A)
  : result failure response :=
  match r with
  | inl e => inl e
  | inr a => inr (wrap a)
  end.

(** One request through its route.  What [generate_itinerary] and
    [get_itinerary] return holds the itinerary data as the generator
    wrote it, and is rendered as JSON by the framework after the handler
    has returned. *)
Definition handle (now : Z) (r : request) (d : db)
  : result failure response * db :=
  match r with
  | PostRegister user_data new_id salt =>
      let (res, d') := register now new_id salt user_data d in
      (answer RToken res, d')
  | PostLogin credentials => (answer RToken (login now credentials d), d)
  | GetMe authorization =>
      match authenticate now authorization d with
      | inl e => (inl e, d)
      | inr current_user => (ok (RUser (get_me current_user)), d)
      end
  | PostTrips authorization body new_id =>
      match authenticate now authorization d with
      | inl e => (inl e, d)
      | inr current_user =>
          match validate_TripCriteriaCreate body with
          | inl e => (inl e, d)
          | inr trip_data =>
              let (res, d') :=
                create_trip now new_id trip_data current_user d in
              (answer RTrip res, d')
          end
      end
  | GetTrips authorization =>
      match authenticate now authorization d with
      | inl e => (inl e, d)
      | inr current_user => (ok (RTrips (get_trips current_user d)), d)
      end
  | PostGenerateItinerary authorization trip_id new_id llm =>
      match authenticate now authorization d with
      | inl e => (inl e, d)
      | inr current_user =>
          let (res, d') :=
            generate_itinerary now new_id llm trip_id current_user d in
          (answer RGenerated
                  (let* g := res in rendered (g_itinerary g) g), d')
      end
  | GetItinerary authorization trip_id =>
      match authenticate now authorization d with
      | inl e => (inl e, d)
      | inr current_user =>
          (answer RItinerary
                  (let* i := get_itinerary trip_id current_user d in
                   rendered (JObject (i_itinerary_data i)) i), d)
      end
  end.

(** The Authorization header of a request to a bearer-protected route. *)
Definition protected (r : request) : option (option pystr) :=
  match r with
  | PostRegister _ _ _ | PostLogin _ => None
  | GetMe a | PostTrips a _ _ | GetTrips a
  | PostGenerateItinerary a _ _ _ | GetItinerary a _ => Some a
  end.

End Service.

(** ** Contracts of the libraries *)

(** PyJWT: decoding, under the same key and algorithm, a token that
    [jwt.encode] made for a payload with an integer [exp] verifies its
    signature, then refuses it as expired from [exp] on and returns the
    payload before. *)
Class JwtContract `{Platform} : Prop := {
  jwt_decode_encode : forall now payload key alg exp,
    payload !! "exp"%string = Some (ClaimInt exp) ->
    jwt_decode now (jwt_encode payload key alg) key [alg]
    = if exp <=? now then ExpiredSignatureError else Decoded payload
}.

(** [json.loads]: white space around a document is not significant, and a
    document begins and ends with a character of a JSON value, which is
    neither blank nor a backtick. *)
Class JsonContract `{Platform} : Prop := {
  json_loads_leading_ws : forall c s v,
    json_ws c = true -> json_loads (c :: s) = inr v -> json_loads s = inr v;
  json_loads_trailing_ws : forall c s v,
    json_ws c = true -> json_loads (s ++ [c]) = inr v -> json_loads s = inr v;
  json_loads_first : forall c s v,
    json_loads (c :: s) = inr v ->
    c <> backtick /\ (isspace c = true -> json_ws c = true);
  json_loads_last : forall c s v,
    json_loads (s ++ [c]) = inr v -> isspace c = true -> json_ws c = true
}.

(** A reply wrapped in code-fence markers: a line of three backticks,
    with or without the tag [json], the document, a line of three
    backticks. *)
Definition fenced (tagged : bool) (s : pystr) : pystr :=
  (if tagged then lit "```json" else lit "```")
  ++ [newline] ++ s ++ [newline] ++ lit "```".

(** ** Literal sets of the trip model *)



(** ** Store invariants and reachable stores *)

Definition emails_unique (d : db) : Prop := NoDup (u_email <$> users d).

Record store_ok (d : db) : Prop := {
  user_ids_unique : NoDup (u_id <$> users d);
  trip_ids_unique : NoDup (t_id <$> trips d);
  itineraries_owned : forall i, i ∈ itineraries d ->
    exists t, t ∈ trips d /\ t_id t = i_trip_id i
              /\ t_user_id t = i_user_id i
}.

(** [uuid.uuid4()] draws an identifier no stored record of the collection
    carries. *)
Definition uuid_fresh (r : request) (d : db) : Prop :=
  match r with
  | PostRegister _ new_id _ => new_id ∉ u_id <$> users d
  | PostTrips _ _ new_id => new_id ∉ t_id <$> trips d
  | PostGenerateItinerary _ _ new_id _ => new_id ∉ i_id <$> itineraries d
  | _ => True
  end.

(** The stores the service reaches from the empty one, serving one
    request after the other. *)
Inductive reachable `{Platform} : db -> Prop :=
| reachable_empty : reachable empty_db
| reachable_step now r d :
    reachable d -> uuid_fresh r d -> reachable (snd (handle now r d)).

(** Serving a list of requests, each at its clock reading, in order. *)
Fixpoint run `{Platform} (d : db) (steps : list (Z * request)) : db :=
  match steps with
  | [] => d
  | (now, r) :: rest => run (snd (handle now r d)) rest
  end.

Fixpoint fresh_run `{Platform} (d : db) (steps : list (Z * request)) : Prop :=
  match steps with
  | [] => True
  | (now, r) :: rest =>
      uuid_fresh r d /\ fresh_run (snd (handle now r d)) rest
  end.

(** The trips a user owns, in store order. *)
Definition owned_trips (current_user : User) (d : db) : list TripCriteria :=
  List.filter (fun t => str_eq (t_user_id t) (u_id current_user)) (trips d).

(** ** A sample platform

    Small stand-ins for the libraries, used to run the handlers on
    concrete requests. *)

#[global] Instance claim_eq_dec : EqDecision claim.
Proof. solve_decision. Defined.

#[global] Instance claim_countable : Countable claim.
Proof.
  refine (inj_countable'
            (fun c => match c with ClaimStr s => inl s | ClaimInt z => inr z end)
            (fun x => match x with inl s => ClaimStr s | inr z => ClaimInt z end)
            _).
  intros []; reflexivity.
Defined.

Module Sample.

(** The claims check of the sample decoder: [exp], when present, must
    be an integer and lie in the future. *)
Definition sample_verify (now : Z) (payload : gmap string claim)
  : jwt_outcome :=
  match payload !! "exp"%string with
  | None => Decoded payload
  | Some (ClaimInt exp) =>
      if exp <=? now then ExpiredSignatureError else Decoded payload
  | Some (ClaimStr _) => InvalidTokenError
  end.

(** A token is the numbering of (payload, key, algorithm): decoding
    checks the key and the algorithm, then the claims. *)
Definition sample_encode (payload : gmap string claim) (key alg : pystr)
  : pystr :=
  [Npos (encode (payload, key, alg))].

Definition sample_decode (now : Z) (token key : pystr) (algs : list pystr)
  : jwt_outcome :=
  match token with
  | [Npos p] =>
      match decode p : option (gmap string claim * pystr * pystr) with
      | Some (payload, k, alg) =>
          if bool_decide (k = key) && bool_decide (alg ∈ algs)
          then sample_verify now payload
          else InvalidTokenError
      | None => InvalidTokenError
      end
  | _ => InvalidTokenError
  end.

(** A decoder for the documents [{}] and [null], with white space
    around them. *)
Definition sample_loads (s : pystr) : result pystr jvalue :=
  let body := strip_with json_ws s in
  if bool_decide (body = lit "{}") then inr (JObject [])
  else if bool_decide (body = lit "null") then inr JNull
  else inl (lit "Expecting value").

(** passlib's bcrypt refuses a password that holds a NUL character. *)
Definition sample_hash (salt password : pystr) : result pystr pystr :=
  if bool_decide (0%N ∈ password)
  then inl (lit "NULL bytes are not allowed in passwords")
  else inr (salt ++ lit "$" ++ password).

Definition sample_check (plain hashed : pystr) : result pystr bool :=
  if bool_decide (0%N ∈ plain)
  then inl (lit "NULL bytes are not allowed in passwords")
  else inr (endswith (lit "$" ++ plain) hashed).

(** [p] holds of a JSON value and of every value inside it. *)
Fixpoint jvalue_all (p : jvalue -> bool) (v : jvalue) : bool :=
  p v
  && match v with
     | JArray items => List.forallb (jvalue_all p) items
     | JObject members =>
         List.forallb (fun kv => jvalue_all p (snd kv)) members
     | _ => true
     end.

Definition int64 (z : Z) : bool := (- 2 ^ 63 <=? z) && (z <? 2 ^ 63).

(** The driver refuses integers beyond 8 bytes. *)
Definition sample_bson_error (doc : document) : option pystr :=
  let fits :=
    match doc with
    | UserDoc _ => true
    | TripDoc t => int64 (t_number_of_days t)
    | ItineraryDoc i =>
        jvalue_all (fun v => match v with JInt z => int64 z | _ => true end)
                   (JObject (i_itinerary_data i))
    end in
  if fits then None
  else Some (lit "MongoDB can only handle up to 8-byte ints").

(** JSON rendering refuses floats that are infinite or no number. *)
Definition sample_render_error (v : jvalue) : option pystr :=
  if jvalue_all (fun v => match v with
                          | JFloat r =>
                              negb (bool_decide
                                      (r ∈ [lit "inf"; lit "-inf"; lit "nan"]))
                          | _ => true
                          end) v
  then None
  else Some (lit "Out of range float values are not JSON compliant").

Definition sample_security (authorization : option pystr)
  : result failure pystr :=
  match authorization with
  | None => raise (HTTPException 401 (lit "Not authenticated"))
  | Some h =>
      if startswith (lit "Bearer ") h then ok (drop 7 h)
      else raise (HTTPException 401 (lit "Not authenticated"))
  end.

Definition platform : Platform := {|
  env_JWT_SECRET := None;
  env_JWT_ALGORITHM := None;
  env_JWT_EXPIRATION_HOURS := None;
  pwd_context_hash := sample_hash;
  pwd_context_verify := sample_check;
  jwt_encode := sample_encode;
  jwt_decode := sample_decode;
  json_loads := sample_loads;
  security := sample_security;
  dict_type_error := fun _ => lit "Input should be a valid dictionary";
  bson_error := sample_bson_error;
  render_error := sample_render_error
|}.

Definition alice : User :=
  mkUser (lit "u-alice") (lit "alice@example.com") (lit "Alice")
         (lit "s1$pw123456") 0.
Definition bob : User :=
  mkUser (lit "u-bob") (lit "bob@example.com") (lit "Bob")
         (lit "s2$hunter22") 0.

Definition paris_body (days : option Z) : TripBody :=
  mkTripBody (lit "Paris") (lit "2026-01-10T09:00") (lit "2026-01-13T18:00")
             (lit "Hotel in Marais District") (lit "2026-01-10T14:00")
             (lit "2026-01-13T11:00") days (lit "couple") (lit "cultural")
             (lit "moderate") (lit "balanced")
             [(lit "user_id", JString (lit "u-bob"))].

Definition paris (days : Z) : TripCriteria :=
  mkTripCriteria (lit "t-paris") (lit "u-alice") (lit "Paris")
                 (lit "2026-01-10T09:00") (lit "2026-01-13T18:00")
                 (lit "Hotel in Marais District") (lit "2026-01-10T14:00")
                 (lit "2026-01-13T11:00") days couple cultural moderate
                 balanced 5.

(** Alice and Bob registered, Alice owns one trip. *)
Definition store : db := mkDb [alice; bob] [paris 3] [].

Definition bearer (token : pystr) : option pystr :=
  Some (lit "Bearer " ++ token).

(** A token signed with the default secret whose payload is empty. *)
Definition bare_token : pystr :=
  sample_encode ∅ (lit "travel_planner_secret_key") (lit "HS256").

(** The tokens issued at time 0 to Alice, to Bob, and to Carol, whose
    account is not in the store. *)
Definition alice_token : pystr :=
  @create_jwt_token platform 0 (u_id alice) (u_email alice).
Definition bob_token : pystr :=
  @create_jwt_token platform 0 (u_id bob) (u_email bob).
Definition carol_token : pystr :=
  @create_jwt_token platform 0 (lit "u-carol") (lit "carol@example.com").

Definition alice_form : UserRegister :=
  mkUserRegister (lit "alice@example.com") (lit "Alice") (lit "pw123456").
Definition bob_form : UserRegister :=
  mkUserRegister (lit "bob@example.com") (lit "Bob") (lit "hunter22").

(** Alice and Bob registered, no trip yet. *)
Definition accounts : db := mkDb [alice; bob] [] [].

(** The requests that lead from the empty store to [store]. *)
Definition journey : list (Z * request) :=
  [(0, PostRegister alice_form (lit "u-alice") (lit "s1"));
   (0, PostRegister bob_form (lit "u-bob") (lit "s2"));
   (5, PostTrips (bearer alice_token) (paris_body (Some 3))
                 (lit "t-paris"))].

(** A store in which Alice owns 101 trips. *)
Definition numbered (i : nat) : TripCriteria :=
  mkTripCriteria (lit "t-" ++ [N.of_nat i]) (lit "u-alice") (lit "Paris")
                 (lit "2026-01-10T09:00") (lit "2026-01-13T18:00")
                 (lit "Hotel in Marais District") (lit "2026-01-10T14:00")
                 (lit "2026-01-13T11:00") 3 couple cultural moderate
                 balanced 5.

Definition crowded : db := mkDb [alice; bob] (numbered <$> seq 0 101) [].

End Sample.

(** ** Further contracts, invariants and sample data *)

(** passlib: a password verifies against a hash made from it, whatever
    the salt drawn. *)
Class PwdContract `{Platform} : Prop := {
  pwd_verify_hash : forall salt password hashed,
    pwd_context_hash salt password = inr hashed ->
    pwd_context_verify password hashed = inr true
}.

(** [json.loads]: the empty text is no document, and no document ends
    with a backtick. *)
Class JsonTextContract `{Platform} : Prop := {
  json_loads_empty : forall v, json_loads [] <> inr v;
  json_loads_no_final_backtick : forall s v,
    json_loads (s ++ [backtick]) <> inr v
}.

(** A run of white space, as [str.strip] sees it. *)
Definition blank (w : pystr) : Prop := Forall (fun c => isspace c = true) w.

(** A reply that opens a code fence and never closes it. *)
Definition unterminated (tagged : bool) (s : pystr) : pystr :=
  (if tagged then lit "```json" else lit "```") ++ [newline] ++ s.

(** Every trip and every itinerary names a stored user as its owner. *)
Definition owners_exist (d : db) : Prop :=
  (forall t, t ∈ trips d -> exists u, u ∈ users d /\ u_id u = t_user_id t)
  /\ (forall i, i ∈ itineraries d ->
        exists u, u ∈ users d /\ u_id u = i_user_id i).

(** What a successful answer of a protected route may carry, given the
    user the request was authenticated as and the store it was served
    from. *)
Definition scoped_to (current_user : User) (d : db) (resp : response)
  : Prop :=
  match resp with
  | RToken _ => False
  | RUser v =>
      v_id v = u_id current_user /\ v_email v = u_email current_user
      /\ v_name v = u_name current_user
  | RTrip t => t_user_id t = u_id current_user
  | RTrips l =>
      forall t, t ∈ l -> t ∈ trips d /\ t_user_id t = u_id current_user
  | RGenerated g =>
      exists t, t ∈ trips d /\ t_id t = g_trip_id g
                /\ t_user_id t = u_id current_user
  | RItinerary i => i ∈ itineraries d /\ i_user_id i = u_id current_user
  end.

(** The name under which a value of an enumerated field was submitted. *)
Definition submitted_as {A} (table : list (string * A)) (s : pystr) (a : A)
  : Prop :=
  exists name, (name, a) ∈ table /\ lit name = s.

Module SampleMore.






Definition first_plan : Itinerary :=
  mkItinerary (lit "i-1") (lit "t-paris") (lit "u-alice") [] 9.

(** [Sample.store] after one itinerary was generated for Alice's trip. *)
Definition planned : db :=
  mkDb [Sample.alice; Sample.bob] [Sample.paris 3] [first_plan].

Definition carol_form : UserRegister :=
  mkUserRegister (lit "carol@example.com") (lit "Carol") (lit "s3cret").

Definition carol : User :=
  mkUser (lit "u-carol") (lit "carol@example.com") (lit "Carol")
         (lit "s3$s3cret") 7.

(** A store in which Alice owns exactly 100 trips. *)
Definition full : db :=
  mkDb [Sample.alice; Sample.bob] (Sample.numbered <$> seq 0 100) [].

End SampleMore.

(** * Properties *)

(** ** Strings *)

Section Strings.

Lemma startswith_nil s : startswith [] s = true.
Proof. apply bool_decide_eq_true, prefix_nil. Qed.

Lemma startswith_cons c p c' s :
  startswith (c :: p) (c' :: s) = bool_decide (c = c') && startswith p s.
Proof.
  unfold startswith.
  destruct (decide (c = c')) as [->|Hne].
  - rewrite (bool_decide_eq_true_2 (c' = c')) by reflexivity. simpl.
    apply bool_decide_ext. split.
    + apply prefix_cons_inv_2.
    + apply prefix_cons.
  - rewrite (bool_decide_eq_false_2 (c = c')) by assumption. simpl.
    apply bool_decide_eq_false. intros Hp.
    apply Hne. eapply prefix_cons_inv_1, Hp.
Qed.

Lemma endswith_app p s : endswith p (s ++ p) = true.
Proof. apply bool_decide_eq_true. by exists s. Qed.

Lemma slice_to_minus_app (p s : pystr) :
  slice_to_minus (length p) (s ++ p) = s.
Proof.
  unfold slice_to_minus. rewrite length_app.
  replace (length s + length p - length p)%nat with (length s) by lia.
  apply take_app_length.
Qed.

Lemma rstrip_with_snoc P s c :
  rstrip_with P (s ++ [c])
  = if P c then rstrip_with P s else s ++ [c].
Proof.
  unfold rstrip_with. rewrite reverse_snoc. simpl.
  destruct (P c); [reflexivity|].
  by rewrite reverse_cons, reverse_involutive.
Qed.

(** A string that begins and ends with a character outside [P] is left
    as it is. *)
Lemma strip_with_fixed P c1 mid c2 :
  P c1 = false -> P c2 = false ->
  strip_with P (c1 :: mid ++ [c2]) = c1 :: mid ++ [c2].
Proof.
  intros H1 H2. unfold strip_with. simpl. rewrite H1.
  change (c1 :: mid ++ [c2]) with ((c1 :: mid) ++ [c2]).
  by rewrite rstrip_with_snoc, H2.
Qed.

Lemma strip_with_snoc P s c :
  P c = true -> strip_with P (s ++ [c]) = strip_with P s.
Proof.
  intros Hc. unfold strip_with. induction s as [|a s IH]; simpl.
  - by rewrite Hc.
  - destruct (P a) eqn:Ha; [exact IH|].
    change (a :: s ++ [c]) with ((a :: s) ++ [c]).
    by rewrite rstrip_with_snoc, Hc.
Qed.

Lemma strip_with_cons P s c :
  P c = true -> strip_with P (c :: s) = strip_with P s.
Proof. intros Hc. unfold strip_with. simpl. by rewrite Hc. Qed.

(** What is left of a blank-padded string is the string stripped. *)
Lemma strip_padded s :
  strip (newline :: s ++ [newline]) = strip s.
Proof.
  unfold strip. rewrite strip_with_cons by reflexivity.
  by rewrite strip_with_snoc.
Qed.

End Strings.

(** ** The two-stage parser (C2) *)

Section Parser.

Context `{JsonContract}.

Lemma json_loads_lstrip s v :
  json_loads s = inr v -> json_loads (lstrip_with isspace s) = inr v.
Proof.
  induction s as [|c s IH]; simpl; [done|].
  intros Hs. destruct (isspace c) eqn:Hc; [|done].
  apply IH. apply (json_loads_leading_ws c); [|done].
  by apply (json_loads_first c s v).
Qed.

Lemma json_loads_rstrip s v :
  json_loads s = inr v -> json_loads (rstrip_with isspace s) = inr v.
Proof.
  induction s as [|c s IH] using rev_ind; [done|].
  intros Hs. rewrite rstrip_with_snoc.
  destruct (isspace c) eqn:Hc; [|done].
  apply IH. apply (json_loads_trailing_ws c); [|done].
  by apply (json_loads_last c s v).
Qed.

(** A valid document is still valid, with the same value, once
    stripped. *)
Lemma json_loads_strip s v :
  json_loads s = inr v -> json_loads (strip s) = inr v.
Proof.
  intros Hs. unfold strip, strip_with.
  by apply json_loads_rstrip, json_loads_lstrip.
Qed.

Lemma json_loads_fenced_fails tagged s :
  exists e, json_loads (fenced tagged s) = inl e.
Proof.
  destruct (json_loads (fenced tagged s)) as [e|v] eqn:E; [by exists e|].
  exfalso. destruct tagged; simpl in E;
    by destruct (json_loads_first _ _ _ E) as [Hb _].
Qed.

Lemma fence_codes : fence = [backtick; backtick; backtick].
Proof. reflexivity. Qed.

Lemma fence_json_codes :
  fence_json = [backtick; backtick; backtick; 106; 115; 111; 110]%N.
Proof. reflexivity. Qed.

Lemma fenced_unfold tagged s :
  fenced tagged s
  = (if tagged then fence_json else fence) ++ (newline :: s ++ [newline])
    ++ fence.
Proof.
  unfold fenced. destruct tagged; simpl; by rewrite <- !app_assoc.
Qed.

Lemma fenced_shape tagged s :
  exists mid, fenced tagged s = backtick :: mid ++ [backtick].
Proof.
  exists ((if tagged then [backtick; backtick; 106; 115; 111; 110]%N
           else [backtick; backtick])
          ++ (newline :: s ++ [newline]) ++ [backtick; backtick]).
  rewrite fenced_unfold, fence_json_codes, fence_codes.
  destruct tagged; simpl; rewrite <- !app_assoc; reflexivity.
Qed.

Lemma strip_code_fence_fenced tagged s :
  strip_code_fence (fenced tagged s) = strip s.
Proof.
  unfold strip_code_fence.
  assert (Hfix : strip (fenced tagged s) = fenced tagged s).
  { destruct (fenced_shape tagged s) as [mid ->].
    by apply strip_with_fixed. }
  rewrite Hfix, fenced_unfold. clear Hfix.
  set (body := newline :: s ++ [newline]).
  assert (Hbody : startswith fence (body ++ fence) = false).
  { rewrite fence_codes. unfold body. simpl.
    by rewrite startswith_cons. }
  assert (Hopen : (if startswith fence_json
                        ((if tagged then fence_json else fence)
                         ++ body ++ fence)
                   then slice_from 7 ((if tagged then fence_json else fence)
                                      ++ body ++ fence)
                   else (if tagged then fence_json else fence)
                        ++ body ++ fence)
                  = (if tagged then body ++ fence
                     else fence ++ body ++ fence)).
  { destruct tagged.
    - rewrite fence_json_codes. simpl.
      by rewrite ?startswith_cons, ?startswith_nil.
    - rewrite fence_json_codes, fence_codes. unfold body. simpl.
      by rewrite ?startswith_cons. }
  rewrite Hopen. clear Hopen.
  assert (Hopen : (if startswith fence
                        (if tagged then body ++ fence
                         else fence ++ body ++ fence)
                   then slice_from 3 (if tagged then body ++ fence
                                      else fence ++ body ++ fence)
                   else (if tagged then body ++ fence
                         else fence ++ body ++ fence))
                  = body ++ fence).
  { destruct tagged.
    - by rewrite Hbody.
    - rewrite fence_codes at 1 2 3. simpl.
      by rewrite ?startswith_cons, ?startswith_nil. }
  rewrite Hopen. clear Hopen.
  rewrite endswith_app.
  rewrite (slice_to_minus_app fence).
  apply strip_padded.
Qed.

(** C2: a reply wrapped in code-fence markers parses to the same
    structure as the unwrapped document, and the unwrapped document
    parses at the first, strict, attempt. *)
Theorem parse_response_fenced s v tagged :
  json_loads s = inr v ->
  parse_response (fenced tagged s) = inr v
  /\ parse_response s = inr v.
Proof.
  intros Hs. split.
  - unfold parse_response.
    destruct (json_loads_fenced_fails tagged s) as [e ->].
    rewrite strip_code_fence_fenced. by apply json_loads_strip.
  - unfold parse_response. by rewrite Hs.
Qed.

End Parser.

(** ** Collections *)

Section Collections.

Context {A : Type}.
Implicit Types (f : A -> bool) (l : list A).

Lemma find_one_None f l :
  (forall x, x ∈ l -> f x = false) -> find_one f l = None.
Proof.
  induction l as [|a l IH]; intros Hall; simpl; [reflexivity|].
  rewrite (Hall a) by left.
  apply IH. intros x Hx. apply Hall. by right.
Qed.

Lemma find_one_Some f l x :
  find_one f l = Some x -> x ∈ l /\ f x = true.
Proof.
  induction l as [|a l IH]; simpl; [discriminate|].
  destruct (f a) eqn:Ha.
  - intros [= <-]. split; [left|exact Ha].
  - intros Hx. destruct (IH Hx) as [Hin Hf]. split; [by right|exact Hf].
Qed.

Lemma find_one_is_Some f l x :
  x ∈ l -> f x = true -> exists y, find_one f l = Some y.
Proof.
  induction l as [|a l IH]; intros Hin Hf.
  - by apply elem_of_nil in Hin.
  - simpl. destruct (f a) eqn:Ha; [by exists a|].
    apply IH; [|exact Hf].
    apply elem_of_cons in Hin as [->|Hin]; [congruence|exact Hin].
Qed.

Lemma elem_of_filter_bool f l x :
  x ∈ List.filter f l <-> x ∈ l /\ f x = true.
Proof. rewrite !list_elem_of_In. apply filter_In. Qed.

End Collections.

Lemma str_eq_true a b : str_eq a b = true <-> a = b.
Proof. unfold str_eq. apply bool_decide_eq_true. Qed.

Lemma str_eq_false a b : str_eq a b = false <-> a <> b.
Proof. unfold str_eq. apply bool_decide_eq_false. Qed.

Lemma str_eq_refl a : str_eq a a = true.
Proof. by apply str_eq_true. Qed.

(** ** Bearer tokens (C4) *)

Section Tokens.

Context `{Platform}.

Lemma authenticate_rejected now authorization d e :
  security authorization = inl e ->
  authenticate now authorization d = inl e.
Proof. intros Hs. unfold authenticate. by rewrite Hs. Qed.

Lemma authenticate_token now authorization d token :
  security authorization = inr token ->
  authenticate now authorization d = get_current_user now token d.
Proof. intros Hs. unfold authenticate. by rewrite Hs. Qed.

(** Every bearer-protected route answers a failed authentication with
    that very failure and leaves the store as it is. *)
Lemma protected_route_rejects now r authorization d e :
  protected r = Some authorization ->
  authenticate now authorization d = inl e ->
  handle now r d = (inl e, d).
Proof.
  intros Hp Ha. destruct r; simpl in Hp; try discriminate;
    injection Hp as ->; simpl; by rewrite Ha.
Qed.

(** X17: a request without usable bearer credentials is answered by the
    bearer scheme of the framework, before any token is looked at; an
    expired token, a token whose signature or format is wrong, and a
    token whose [user_id] names no stored user are each answered with
    401; every protected route answers a failed authentication with that
    same failure. *)
Theorem authentication_failures now authorization d :
  (forall e, security authorization = inl e ->
             authenticate now authorization d = inl e)
  /\ (forall token, security authorization = inr token ->
        (jwt_decode now token JWT_SECRET [JWT_ALGORITHM]
           = ExpiredSignatureError ->
         authenticate now authorization d
           = inl (HTTPException 401 (lit "Token has expired")))
        /\ (jwt_decode now token JWT_SECRET [JWT_ALGORITHM]
              = InvalidTokenError ->
            authenticate now authorization d
              = inl (HTTPException 401 (lit "Invalid token")))
        /\ (forall payload uid,
              jwt_decode now token JWT_SECRET [JWT_ALGORITHM]
                = Decoded payload ->
              payload !! "user_id"%string = Some uid ->
              (forall u, u ∈ users d -> claim_matches uid (u_id u) = false) ->
              authenticate now authorization d
                = inl (HTTPException 401 (lit "User not found"))))
  /\ (forall r e, protected r = Some authorization ->
        authenticate now authorization d = inl e ->
        handle now r d = (inl e, d)).
Proof.
  split; [|split].
  - intros e. apply authenticate_rejected.
  - intros token Hs. rewrite (authenticate_token _ _ _ _ Hs).
    unfold get_current_user, decode_jwt_token.
    split; [|split].
    + by intros ->.
    + by intros ->.
    + intros payload uid -> Huid Hnone. simpl. rewrite Huid.
      by rewrite (find_one_None _ _ Hnone).
  - intros r e. apply protected_route_rejects.
Qed.

(** C4: the issued token carries the user's id and email and the
    expiration issuance + 720 hours (the default); before that time it
    decodes to the same payload, after it decoding is refused as
    expired. *)
Theorem issued_token_roundtrip `{!JwtContract} (u : User) (now now' : Z) :
  env_JWT_EXPIRATION_HOURS = None ->
  exists payload,
    create_jwt_token now (u_id u) (u_email u)
      = jwt_encode payload JWT_SECRET JWT_ALGORITHM
    /\ payload !! "user_id"%string = Some (ClaimStr (u_id u))
    /\ payload !! "email"%string = Some (ClaimStr (u_email u))
    /\ payload !! "exp"%string = Some (ClaimInt (now + 720 * 3600))
    /\ (now' < now + 720 * 3600 ->
        decode_jwt_token now' (create_jwt_token now (u_id u) (u_email u))
          = inr payload)
    /\ (now + 720 * 3600 < now' ->
        decode_jwt_token now' (create_jwt_token now (u_id u) (u_email u))
          = inl (HTTPException 401 (lit "Token has expired"))).
Proof.
  intros Henv. unfold create_jwt_token, decode_jwt_token.
  unfold JWT_EXPIRATION_HOURS, timedelta_hours. rewrite Henv. simpl.
  eexists. split; [reflexivity|].
  rewrite (jwt_decode_encode now' _ _ _ (now + 720 * 3600))
    by (by simplify_map_eq).
  split; [by simplify_map_eq|]. split; [by simplify_map_eq|].
  split; [by simplify_map_eq|]. split.
  - intros Hlt.
    destruct (now + 720 * 3600 <=? now') eqn:E; [lia|reflexivity].
  - intros Hlt.
    destruct (now + 720 * 3600 <=? now') eqn:E; [reflexivity|lia].
Qed.

End Tokens.

(** ** Accounts (C5, C8) *)

Section Accounts.

Context `{Platform}.

Lemma find_one_None_inv {A} (f : A -> bool) (l : list A) x :
  find_one f l = None -> x ∈ l -> f x = false.
Proof.
  induction l as [|a l IH]; simpl; intros Hnone Hin.
  - by apply elem_of_nil in Hin.
  - destruct (f a) eqn:Ha; [discriminate|].
    apply elem_of_cons in Hin as [->|Hin]; [exact Ha|by apply IH].
Qed.

Lemma register_taken now new_id salt user_data d u :
  u ∈ users d -> u_email u = reg_email user_data ->
  register now new_id salt user_data d
  = (inl (HTTPException 400 (lit "Email already registered")), d).
Proof.
  intros Hin Hmail. unfold register.
  destruct (find_one_is_Some
              (fun u => str_eq (u_email u) (reg_email user_data))
              (users d) u Hin) as [y ->]; [|reflexivity].
  by apply str_eq_true.
Qed.

(** After a registration attempt that was answered with success or with
    400, the email is taken. *)
Lemma register_email_stored now new_id salt user_data d :
  (exists tr, fst (register now new_id salt user_data d) = inr tr)
  \/ fst (register now new_id salt user_data d)
     = inl (HTTPException 400 (lit "Email already registered")) ->
  exists u, u ∈ users (snd (register now new_id salt user_data d))
            /\ u_email u = reg_email user_data.
Proof.
  unfold register.
  destruct (find_one _ (users d)) as [u|] eqn:E; simpl.
  - intros _. apply find_one_Some in E as [Hin Heq]. exists u.
    split; [exact Hin|by apply str_eq_true].
  - destruct (hash_password _ _) as [e|h]; simpl.
    { intros [[tr Htr]|Hdup]; discriminate. }
    destruct (inserting _) as [e|[]]; simpl.
    { intros [[tr Htr]|Hdup]; discriminate. }
    intros _. eexists. split; [apply elem_of_app; right; by left|reflexivity].
Qed.

(** C5 (as the code has it): registering an email that a stored user
    already has fails with 400 and leaves the store as it is; in
    particular, after a registration that was answered with success or
    with 400, a second registration with the same email fails with 400,
    whatever the name and the password. *)
Theorem register_duplicate_email now new_id salt user_data d :
  (forall u, u ∈ users d -> u_email u = reg_email user_data ->
     register now new_id salt user_data d
     = (inl (HTTPException 400 (lit "Email already registered")), d))
  /\ (forall now2 id2 salt2 name2 password2,
        let d1 := snd (register now new_id salt user_data d) in
        (exists tr, fst (register now new_id salt user_data d) = inr tr)
        \/ fst (register now new_id salt user_data d)
           = inl (HTTPException 400 (lit "Email already registered")) ->
        register now2 id2 salt2
                 (mkUserRegister (reg_email user_data) name2 password2) d1
        = (inl (HTTPException 400 (lit "Email already registered")), d1)).
Proof.
  split.
  - intros u. apply register_taken.
  - intros now2 id2 salt2 name2 password2 d1 Hanswered.
    destruct (register_email_stored now new_id salt user_data d Hanswered)
      as (u & Hin & Hmail).
    by apply (register_taken _ _ _ _ _ u).
Qed.


Lemma handle_users now r d :
  (forall user_data new_id salt, r <> PostRegister user_data new_id salt) ->
  users (snd (handle now r d)) = users d.
Proof.
  intros Hr. destruct r; simpl.
  - by destruct (Hr user_data new_id salt).
  - reflexivity.
  - by destruct (authenticate _ _ _).
  - destruct (authenticate _ _ _); [reflexivity|].
    destruct (validate_TripCriteriaCreate body); [reflexivity|].
    unfold create_trip. by destruct (inserting _).
  - by destruct (authenticate _ _ _).
  - destruct (authenticate _ _ _) as [|cu]; [reflexivity|].
    unfold generate_itinerary. destruct (find_one _ (trips d)); [|reflexivity].
    destruct llm as [|response]; [reflexivity|]. simpl.
    destruct (parse_response response) as [|[]]; try reflexivity. simpl.
    by destruct (inserting _).
  - by destruct (authenticate _ _ _).
Qed.

Lemma register_emails_unique now new_id salt user_data d :
  emails_unique d ->
  emails_unique (snd (register now new_id salt user_data d)).
Proof.
  unfold emails_unique, register. intros Hd.
  destruct (find_one _ (users d)) eqn:E; simpl; [exact Hd|].
  destruct (hash_password _ _) as [e|h]; [exact Hd|].
  destruct (inserting _) as [e|[]]; [exact Hd|]. simpl.
  unfold insert_one. rewrite fmap_app. apply list.NoDup_app.
  split; [exact Hd|]. split; [|apply NoDup_singleton].
  intros e He Hnew. apply list_elem_of_singleton in Hnew. simpl in Hnew.
  apply list_elem_of_fmap in He as (u & -> & Hin).
  apply (find_one_None_inv _ _ u) in E; [|exact Hin].
  by apply str_eq_false in E.
Qed.

(** C8: served one after the other, no request breaks the uniqueness
    of emails in the user store. *)
Theorem email_uniqueness_preserved now r d :
  emails_unique d -> emails_unique (snd (handle now r d)).
Proof.
  intros Hd.
  destruct r as [user_data new_id salt| | | | | |];
    [|unfold emails_unique; rewrite handle_users; done..].
  simpl. pose proof (register_emails_unique now new_id salt user_data d Hd).
  by destruct (register now new_id salt user_data d).
Qed.

End Accounts.

(** ** Trips (C9, C10) *)

Section Trips.

Context `{Platform}.







(** C10: the trip list is the first 100 of the caller's trips; what
    lies beyond is left out of the answer. *)
Theorem get_trips_truncated current_user d :
  get_trips current_user d = take 100 (owned_trips current_user d)
  /\ (length (get_trips current_user d) <= 100)%nat
  /\ ((100 < length (owned_trips current_user d))%nat ->
      length (get_trips current_user d) = 100%nat
      /\ owned_trips current_user d
         = get_trips current_user d
           ++ drop 100 (owned_trips current_user d)
      /\ drop 100 (owned_trips current_user d) <> []).
Proof.
  unfold get_trips, find_to_list, owned_trips.
  set (owned := List.filter _ (trips d)).
  split; [reflexivity|]. split.
  - rewrite length_take. lia.
  - intros Hlen. split; [rewrite length_take; lia|].
    split; [by rewrite take_drop|].
    intros Hnil. apply (f_equal length) in Hnil.
    rewrite length_drop in Hnil. simpl in Hnil. lia.
Qed.

End Trips.

(** ** Itinerary generation (C1) *)

Section Generation.

Context `{Platform}.

Lemma owned_trip_found trip_id current_user d trip :
  trip ∈ trips d -> t_id trip = trip_id ->
  t_user_id trip = u_id current_user ->
  exists t,
    find_one (fun t => str_eq (t_id t) trip_id
                       && str_eq (t_user_id t) (u_id current_user))
             (trips d) = Some t.
Proof.
  intros Hin Hid Huser. apply (find_one_is_Some _ _ trip Hin).
  apply andb_true_iff. split; by apply str_eq_true.
Qed.

(** C1: for a trip of the caller, when the text generator raises, or
    its reply parses neither as it is nor with the code fence stripped,
    the request fails with 500, the message of the failure in the
    detail, and the store is left as it was. *)
Theorem generation_failure_persists_nothing now new_id llm trip_id
    current_user d trip :
  trip ∈ trips d -> t_id trip = trip_id ->
  t_user_id trip = u_id current_user ->
  (forall e, llm = inl e ->
     generate_itinerary now new_id llm trip_id current_user d
     = (inl (HTTPException 500 (lit "Failed to generate itinerary: " ++ e)),
        d))
  /\ (forall response e0 e,
        llm = inr response ->
        json_loads response = inl e0 ->
        json_loads (strip_code_fence response) = inl e ->
        generate_itinerary now new_id llm trip_id current_user d
        = (inl (HTTPException 500
                  (lit "Failed to generate itinerary: " ++ e)), d)).
Proof.
  intros Hin Hid Huser.
  destruct (owned_trip_found trip_id current_user d trip Hin Hid Huser)
    as [t Ht].
  unfold generate_itinerary. rewrite Ht. split.
  - by intros e ->.
  - intros response e0 e -> H0 H1. simpl.
    unfold parse_response. by rewrite H0, H1.
Qed.

End Generation.

(** ** Ownership (C7) *)

Section Ownership.

Context `{Platform}.

Lemma NoDup_snoc_fresh {A B} (f : A -> B) (l : list A) (x : A) :
  NoDup (f <$> l) -> f x ∉ f <$> l -> NoDup (f <$> insert_one x l).
Proof.
  intros Hl Hx. unfold insert_one. rewrite fmap_app.
  apply list.NoDup_app. split; [exact Hl|].
  split; [|apply NoDup_singleton].
  intros y Hy Hy'. apply list_elem_of_singleton in Hy'. by subst.
Qed.

Lemma store_ok_empty : store_ok empty_db.
Proof.
  split; simpl; try apply NoDup_nil_2.
  intros i Hi. by apply elem_of_nil in Hi.
Qed.

Lemma register_store_ok now new_id salt user_data d :
  store_ok d -> new_id ∉ u_id <$> users d ->
  store_ok (snd (register now new_id salt user_data d)).
Proof.
  intros [Hu Ht Hi] Hfresh. unfold register.
  destruct (find_one _ (users d)); simpl; [by split|].
  destruct (hash_password _ _) as [e|h]; [by split|].
  destruct (inserting _) as [e|[]]; [by split|].
  split; simpl; [|exact Ht|exact Hi].
  by apply NoDup_snoc_fresh.
Qed.

Lemma create_trip_store_ok now new_id trip_data current_user d :
  store_ok d -> new_id ∉ t_id <$> trips d ->
  store_ok (snd (create_trip now new_id trip_data current_user d)).
Proof.
  intros [Hu Ht Hi] Hfresh. unfold create_trip.
  destruct (inserting _) as [e|[]]; [by split|].
  split; simpl; [exact Hu| |].
  - by apply NoDup_snoc_fresh.
  - intros i Hin. destruct (Hi i Hin) as (t & Htin & Hids).
    exists t. split; [|exact Hids].
    unfold insert_one. apply elem_of_app. by left.
Qed.

Lemma generate_itinerary_store_ok now new_id llm trip_id current_user d :
  store_ok d ->
  store_ok (snd (generate_itinerary now new_id llm trip_id current_user d)).
Proof.
  intros Hd. unfold generate_itinerary.
  destruct (find_one _ (trips d)) as [trip|] eqn:E; [|exact Hd].
  destruct llm as [e|response]; [exact Hd|]. simpl.
  destruct (parse_response response) as [e|v]; [exact Hd|]. simpl.
  destruct v; try exact Hd. simpl.
  destruct (inserting _) as [e|[]]; [exact Hd|]. simpl.
  destruct Hd as [Hu Ht Hi]. split; simpl; [exact Hu|exact Ht|].
  intros i Hin. unfold insert_one in Hin.
  apply elem_of_app in Hin as [Hin|Hin]; [by apply Hi|].
  apply list_elem_of_singleton in Hin. subst i. simpl.
  apply find_one_Some in E as [Htin Hmatch].
  apply andb_true_iff in Hmatch as [Hid Huser].
  exists trip. split; [exact Htin|].
  split; by apply str_eq_true.
Qed.

Lemma handle_store_ok now r d :
  store_ok d -> uuid_fresh r d -> store_ok (snd (handle now r d)).
Proof.
  intros Hd Hfresh. destruct r; simpl in *.
  - pose proof (register_store_ok now new_id salt user_data d Hd Hfresh).
    by destruct (register now new_id salt user_data d).
  - exact Hd.
  - by destruct (authenticate _ _ _).
  - destruct (authenticate _ _ _) as [|cu]; [exact Hd|].
    destruct (validate_TripCriteriaCreate body) as [|td]; [exact Hd|].
    pose proof (create_trip_store_ok now new_id td cu d Hd Hfresh).
    by destruct (create_trip now new_id td cu d).
  - by destruct (authenticate _ _ _).
  - destruct (authenticate _ _ _) as [|cu]; [exact Hd|].
    pose proof (generate_itinerary_store_ok now new_id llm trip_id cu d Hd).
    by destruct (generate_itinerary now new_id llm trip_id cu d).
  - by destruct (authenticate _ _ _).
Qed.

Lemma reachable_store_ok d : reachable d -> store_ok d.
Proof.
  induction 1 as [|now r d Hd IH Hfresh].
  - apply store_ok_empty.
  - by apply handle_store_ok.
Qed.

Lemma reachable_run d steps :
  reachable d -> fresh_run d steps -> reachable (run d steps).
Proof.
  revert d. induction steps as [|[now r] steps IH]; intros d Hd Hf.
  - exact Hd.
  - destruct Hf as [Hfresh Hrest]. simpl. apply IH; [|exact Hrest].
    by apply reachable_step.
Qed.

(** In a well-formed store a trip identifier names one trip. *)
Lemma trip_id_names_one d t t' :
  store_ok d -> t ∈ trips d -> t' ∈ trips d -> t_id t = t_id t' -> t = t'.
Proof.
  intros [_ Hnd _]. revert Hnd.
  induction (trips d) as [|a l IH]; intros Hnd Ht Ht' Hid.
  - by apply elem_of_nil in Ht.
  - rewrite fmap_cons in Hnd. apply list.NoDup_cons in Hnd as [Ha Hnd].
    apply elem_of_cons in Ht as [->|Ht];
      apply elem_of_cons in Ht' as [->|Ht'].
    + reflexivity.
    + destruct Ha. rewrite Hid. by apply list_elem_of_fmap_2.
    + destruct Ha. rewrite <- Hid. by apply list_elem_of_fmap_2.
    + by apply IH.
Qed.

(** C7: in every store the service reaches, a trip of user A is not in
    the trip list of another user B, and B's requests for its itinerary
    or for generating one are answered with 404, as they are for an
    identifier that names no trip. *)
Theorem trips_isolated_between_users d (A B : User) (t : TripCriteria) :
  reachable d -> t ∈ trips d -> t_user_id t = u_id A ->
  u_id A <> u_id B ->
  (t ∉ get_trips B d)
  /\ get_itinerary (t_id t) B d
     = inl (HTTPException 404 (lit "Itinerary not found"))
  /\ (forall now new_id llm,
        generate_itinerary now new_id llm (t_id t) B d
        = (inl (HTTPException 404 (lit "Trip not found")), d))
  /\ (forall unknown,
        unknown ∉ t_id <$> trips d ->
        get_itinerary unknown B d = get_itinerary (t_id t) B d
        /\ forall now new_id llm,
             generate_itinerary now new_id llm unknown B d
             = generate_itinerary now new_id llm (t_id t) B d).
Proof.
  intros Hreach Hin Howner Hne.
  pose proof (reachable_store_ok d Hreach) as Hok.
  assert (Hnotrip :
    find_one (fun t' => str_eq (t_id t') (t_id t)
                        && str_eq (t_user_id t') (u_id B)) (trips d)
    = None).
  { apply find_one_None. intros t' Hin'.
    apply andb_false_iff.
    destruct (decide (t_id t' = t_id t)) as [Hid|Hid].
    - right. apply str_eq_false.
      rewrite (trip_id_names_one d t' t Hok Hin' Hin Hid). congruence.
    - left. by apply str_eq_false. }
  assert (Hnoitin :
    find_one (fun i => str_eq (i_trip_id i) (t_id t)
                       && str_eq (i_user_id i) (u_id B)) (itineraries d)
    = None).
  { apply find_one_None. intros i Hi.
    destruct (itineraries_owned d Hok i Hi) as (t' & Hin' & Hid & Huser).
    apply andb_false_iff.
    destruct (decide (i_trip_id i = t_id t)) as [Heq|Hneq].
    - right. apply str_eq_false. rewrite <- Huser.
      rewrite (trip_id_names_one d t' t Hok Hin' Hin); congruence.
    - left. by apply str_eq_false. }
  split; [|split; [|split]].
  - unfold get_trips, find_to_list. intros Hlisted.
    apply (subseteq_take 100) in Hlisted.
    apply elem_of_filter_bool in Hlisted as [_ Hmine].
    apply str_eq_true in Hmine. congruence.
  - unfold get_itinerary. by rewrite Hnoitin.
  - intros now new_id llm. unfold generate_itinerary. by rewrite Hnotrip.
  - intros unknown Hunknown.
    assert (Hmiss : forall t', t' ∈ trips d -> t_id t' <> unknown).
    { intros t' Hin' <-. apply Hunknown. by apply list_elem_of_fmap_2. }
    split.
    + unfold get_itinerary. rewrite Hnoitin.
      rewrite find_one_None; [reflexivity|].
      intros i Hi.
      destruct (itineraries_owned d Hok i Hi) as (t' & Hin' & Hid & _).
      apply andb_false_iff. left. apply str_eq_false.
      rewrite <- Hid. by apply Hmiss.
    + intros now new_id llm. unfold generate_itinerary. rewrite Hnotrip.
      rewrite find_one_None; [reflexivity|].
      intros t' Hin'. apply andb_false_iff. left.
      apply str_eq_false. by apply Hmiss.
Qed.

End Ownership.

(** ** The sample platform meets the contracts *)

Section SampleContracts.

Lemma rstrip_with_cons_keep P c s :
  P c = false -> rstrip_with P (c :: s) = c :: rstrip_with P s.
Proof.
  intros Hc. induction s as [|x s IH] using rev_ind.
  - change [c] with ([] ++ [c]). by rewrite rstrip_with_snoc, Hc.
  - change (c :: s ++ [x]) with ((c :: s) ++ [x]).
    rewrite !rstrip_with_snoc. destruct (P x); [exact IH|reflexivity].
Qed.

Lemma lstrip_with_snoc_keep P s c :
  P c = false -> lstrip_with P (s ++ [c]) = lstrip_with P s ++ [c].
Proof.
  intros Hc. induction s as [|a s IH]; simpl.
  - by rewrite Hc.
  - destruct (P a); [exact IH|reflexivity].
Qed.

Lemma sample_loads_valid s v :
  Sample.sample_loads s = inr v ->
  strip_with json_ws s = lit "{}" \/ strip_with json_ws s = lit "null".
Proof.
  unfold Sample.sample_loads.
  destruct (bool_decide (strip_with json_ws s = lit "{}")) eqn:E1.
  - apply bool_decide_eq_true in E1. by left.
  - destruct (bool_decide (strip_with json_ws s = lit "null")) eqn:E2.
    + apply bool_decide_eq_true in E2. by right.
    + discriminate.
Qed.

Lemma sample_jwt_contract : @JwtContract Sample.platform.
Proof.
  split. intros now payload key alg exp Hexp.
  change (@jwt_decode Sample.platform) with Sample.sample_decode.
  change (@jwt_encode Sample.platform) with Sample.sample_encode.
  unfold Sample.sample_decode, Sample.sample_encode.
  rewrite decode_encode.
  rewrite bool_decide_eq_true_2 by reflexivity.
  rewrite bool_decide_eq_true_2 by (by left).
  simpl. unfold Sample.sample_verify. by rewrite Hexp.
Qed.

Lemma sample_json_contract : @JsonContract Sample.platform.
Proof.
  split; change (@json_loads Sample.platform) with Sample.sample_loads.
  - intros c s v Hc. unfold Sample.sample_loads.
    by rewrite strip_with_cons.
  - intros c s v Hc. unfold Sample.sample_loads.
    by rewrite strip_with_snoc.
  - intros c s v Hs. apply sample_loads_valid in Hs.
    destruct (json_ws c) eqn:Hc.
    + split; [|done]. by intros ->.
    + unfold strip_with in Hs. cbn [lstrip_with] in Hs. rewrite Hc in Hs.
      rewrite rstrip_with_cons_keep in Hs by exact Hc.
      change (lit "{}") with [123; 125]%N in Hs.
      change (lit "null") with [110; 117; 108; 108]%N in Hs.
      destruct Hs as [Hs|Hs]; injection Hs as -> _; by split.
  - intros c s v Hs Hsp. apply sample_loads_valid in Hs.
    destruct (json_ws c) eqn:Hc; [reflexivity|].
    unfold strip_with in Hs.
    rewrite lstrip_with_snoc_keep, rstrip_with_snoc, Hc in Hs by exact Hc.
    change (lit "{}") with ([123%N] ++ [125%N]) in Hs.
    change (lit "null") with ([110; 117; 108]%N ++ [108%N]) in Hs.
    destruct Hs as [Hs|Hs]; apply app_inj_tail in Hs as [_ ->];
      discriminate.
Qed.

End SampleContracts.

(** ** Worked requests on the sample platform *)

Section Worked.

Local Abbreviation P := Sample.platform.

Lemma paris_in_store : Sample.paris 3 ∈ trips Sample.store.
Proof. by left. Qed.

Lemma journey_reaches_store :
  @run P empty_db Sample.journey = Sample.store.
Proof. vm_compute. reflexivity. Qed.

Lemma store_reachable : @reachable P Sample.store.
Proof.
  rewrite <- journey_reaches_store.
  apply reachable_run; [apply reachable_empty|].
  unfold Sample.journey. cbn [fresh_run uuid_fresh].
  repeat split; apply (bool_decide_unpack _); vm_compute; exact I.
Qed.

(** C1 at work: the generator times out, then answers with prose. *)
Lemma generation_failure_witness :
  @generate_itinerary P 9 (lit "i-1") (inl (lit "timed out"))
                      (lit "t-paris") Sample.alice Sample.store
  = (inl (HTTPException 500
            (lit "Failed to generate itinerary: " ++ lit "timed out")),
     Sample.store)
  /\ @generate_itinerary P 9 (lit "i-1") (inr (lit "Sorry, no plan"))
                         (lit "t-paris") Sample.alice Sample.store
     = (inl (HTTPException 500
               (lit "Failed to generate itinerary: "
                ++ lit "Expecting value")),
        Sample.store).
Proof.
  split.
  - apply (@generation_failure_persists_nothing P 9 (lit "i-1")
             (inl (lit "timed out")) (lit "t-paris") Sample.alice
             Sample.store (Sample.paris 3) paris_in_store eq_refl eq_refl).
    reflexivity.
  - apply (proj2 (@generation_failure_persists_nothing P 9 (lit "i-1")
             (inr (lit "Sorry, no plan")) (lit "t-paris") Sample.alice
             Sample.store (Sample.paris 3) paris_in_store eq_refl eq_refl)
             (lit "Sorry, no plan") (lit "Expecting value")).
    + reflexivity.
    + vm_compute. reflexivity.
    + vm_compute. reflexivity.
Defined.

(** C2 at work: a fenced and a bare document. *)
Lemma parse_response_fenced_witness :
  @parse_response P (fenced true (lit " {} ")) = inr (JObject [])
  /\ @parse_response P (lit " {} ") = inr (JObject []).
Proof.
  apply (@parse_response_fenced P sample_json_contract).
  vm_compute. reflexivity.
Defined.

Lemma users_of_store (Q : User -> Prop) :
  Q Sample.alice -> Q Sample.bob ->
  forall u, u ∈ users Sample.store -> Q u.
Proof.
  intros Ha Hb u Hu. change (users Sample.store)
    with [Sample.alice; Sample.bob] in Hu.
  apply elem_of_cons in Hu as [->|Hu]; [exact Ha|].
  apply list_elem_of_singleton in Hu as ->. exact Hb.
Qed.

(** X17 at work: no header, an expired token, a string that is no
    token, the token of a user who is not stored, and a route. *)
Lemma authentication_failures_witness :
  @authenticate P 9 None Sample.store
  = inl (HTTPException 401 (lit "Not authenticated"))
  /\ @authenticate P (720 * 3600 + 1) (Sample.bearer Sample.alice_token)
                   Sample.store
     = inl (HTTPException 401 (lit "Token has expired"))
  /\ @authenticate P 9 (Sample.bearer (lit "garbage")) Sample.store
     = inl (HTTPException 401 (lit "Invalid token"))
  /\ @authenticate P 9 (Sample.bearer Sample.carol_token) Sample.store
     = inl (HTTPException 401 (lit "User not found"))
  /\ @handle P 9 (GetTrips None) Sample.store
     = (inl (HTTPException 401 (lit "Not authenticated")), Sample.store).
Proof.
  refine (conj _ (conj _ (conj _ (conj _ _)))).
  - apply (proj1 (@authentication_failures P 9 None Sample.store)).
    reflexivity.
  - apply (proj1 (proj2 (@authentication_failures P (720 * 3600 + 1)
             (Sample.bearer Sample.alice_token) Sample.store))
             Sample.alice_token); vm_compute; reflexivity.
  - apply (proj1 (proj2 (@authentication_failures P 9
             (Sample.bearer (lit "garbage")) Sample.store))
             (lit "garbage")); vm_compute; reflexivity.
  - apply (proj2 (proj2 (proj1 (proj2 (@authentication_failures P 9
             (Sample.bearer Sample.carol_token) Sample.store))
             Sample.carol_token ltac:(vm_compute; reflexivity)))
             (<["user_id"%string := ClaimStr (lit "u-carol")]>
                (<["email"%string := ClaimStr (lit "carol@example.com")]>
                   (<["exp"%string := ClaimInt (720 * 3600)]> ∅)))
             (ClaimStr (lit "u-carol"))).
    + vm_compute. reflexivity.
    + vm_compute. reflexivity.
    + apply users_of_store; vm_compute; reflexivity.
  - apply (proj2 (proj2 (@authentication_failures P 9 None Sample.store))).
    + reflexivity.
    + reflexivity.
Defined.

(** C3 against the code: a token that carries the right signature and
    no [user_id] makes [payload['user_id']] raise [KeyError], so the
    request is answered with 500, where an expired token, a token that
    does not verify and a token of a user who is not stored are answered
    with 401. *)
Lemma unclaimed_token_counterexample :
  @jwt_decode P 9 Sample.bare_token (@JWT_SECRET P) [@JWT_ALGORITHM P]
  = Decoded ∅
  /\ @authenticate P 9 (Sample.bearer Sample.bare_token) Sample.store
     = inl (UnhandledException (lit "KeyError"))
  /\ @handle P 9 (GetMe (Sample.bearer Sample.bare_token)) Sample.store
     = (inl (UnhandledException (lit "KeyError")), Sample.store)
  /\ http_status (UnhandledException (lit "KeyError")) = 500
  /\ http_status (UnhandledException (lit "KeyError")) <> 401.
Proof. repeat split; try (vm_compute; reflexivity). discriminate. Qed.

(** C4 at work: Alice's token, ten seconds and 720 hours and a second
    after it was issued. *)
Lemma issued_token_witness :
  exists payload,
    payload !! "user_id"%string = Some (ClaimStr (lit "u-alice"))
    /\ payload !! "email"%string
       = Some (ClaimStr (lit "alice@example.com"))
    /\ payload !! "exp"%string = Some (ClaimInt (0 + 720 * 3600))
    /\ @decode_jwt_token P 10 Sample.alice_token = inr payload
    /\ @decode_jwt_token P (720 * 3600 + 1) Sample.alice_token
       = inl (HTTPException 401 (lit "Token has expired")).
Proof.
  destruct (@issued_token_roundtrip P sample_jwt_contract Sample.alice
              0 10 eq_refl)
    as (payload & _ & Hid & Hmail & Hexp & Hvalid & _).
  destruct (@issued_token_roundtrip P sample_jwt_contract Sample.alice
              0 (720 * 3600 + 1) eq_refl)
    as (_ & _ & _ & _ & _ & _ & Hexpired).
  exists payload.
  refine (conj Hid (conj Hmail (conj Hexp (conj _ _)))).
  - apply Hvalid. lia.
  - apply Hexpired. lia.
Defined.

(** C5 at work: Alice's email is taken in the store; and from the
    empty store, a second registration under her email fails. *)
Lemma register_duplicate_witness :
  @register P 9 (lit "u-2") (lit "s9") Sample.alice_form Sample.store
  = (inl (HTTPException 400 (lit "Email already registered")), Sample.store)
  /\ @register P 3 (lit "u-3") (lit "s3")
               (mkUserRegister (reg_email Sample.alice_form)
                               (lit "Mallory") (lit "letmein"))
               (snd (@register P 0 (lit "u-alice") (lit "s1")
                               Sample.alice_form empty_db))
     = (inl (HTTPException 400 (lit "Email already registered")),
        snd (@register P 0 (lit "u-alice") (lit "s1")
                       Sample.alice_form empty_db)).
Proof.
  split.
  - apply (proj1 (@register_duplicate_email P 9 (lit "u-2") (lit "s9")
             Sample.alice_form Sample.store) Sample.alice).
    + by left.
    + reflexivity.
  - apply (proj2 (@register_duplicate_email P 0 (lit "u-alice") (lit "s1")
             Sample.alice_form empty_db)).
    left.
    exists (mkTokenResponse Sample.alice_token
              (mkUserView (lit "u-alice") (lit "alice@example.com")
                          (lit "Alice"))).
    vm_compute. reflexivity.
Defined.

(** C5 against the code: a first registration whose password holds a
    NUL character is answered with 500 and nothing is stored; the second
    registration under the same email is then accepted. *)
Lemma crashed_registration_counterexample :
  @register P 0 (lit "u-1") (lit "s1")
            (mkUserRegister (lit "dave@example.com") (lit "Dave") [0%N])
            empty_db
  = (inl (UnhandledException (lit "NULL bytes are not allowed in passwords")),
     empty_db)
  /\ @register P 1 (lit "u-2") (lit "s2")
               (mkUserRegister (lit "dave@example.com") (lit "David")
                               (lit "pw123456"))
               (snd (@register P 0 (lit "u-1") (lit "s1")
                       (mkUserRegister (lit "dave@example.com") (lit "Dave")
                                       [0%N])
                       empty_db))
     = (inr (mkTokenResponse
               (@create_jwt_token P 1 (lit "u-2") (lit "dave@example.com"))
               (mkUserView (lit "u-2") (lit "dave@example.com")
                           (lit "David"))),
        mkDb [mkUser (lit "u-2") (lit "dave@example.com") (lit "David")
                     (lit "s2$pw123456") 1] [] []).
Proof. split; vm_compute; reflexivity. Qed.


(** C6 against the code: with a password that holds a NUL character, a
    login under a stored email is answered with 500 and a login under an
    unknown email with 401, so the two causes can be told apart. *)
Lemma nul_password_counterexample :
  @login P 9 (mkUserLogin (lit "alice@example.com") [0%N]) Sample.store
  = inl (UnhandledException (lit "NULL bytes are not allowed in passwords"))
  /\ @login P 9 (mkUserLogin (lit "nobody@example.com") [0%N]) Sample.store
     = inl (HTTPException 401 (lit "Invalid email or password"))
  /\ http_status
       (UnhandledException (lit "NULL bytes are not allowed in passwords"))
     = 500
  /\ http_status (HTTPException 401 (lit "Invalid email or password")) = 401.
Proof. repeat split; vm_compute; reflexivity. Qed.

(** C7 at work: Bob and Alice's trip to Paris. *)
Lemma trips_isolated_witness :
  (Sample.paris 3 ∉ @get_trips Sample.bob Sample.store)
  /\ get_itinerary (lit "t-paris") Sample.bob Sample.store
     = inl (HTTPException 404 (lit "Itinerary not found"))
  /\ @generate_itinerary P 9 (lit "i-1") (inr (lit "{}")) (lit "t-paris")
                         Sample.bob Sample.store
     = (inl (HTTPException 404 (lit "Trip not found")), Sample.store).
Proof.
  assert (Hne : u_id Sample.alice <> u_id Sample.bob)
    by (intros Heq; vm_compute in Heq; discriminate).
  destruct (@trips_isolated_between_users P Sample.store Sample.alice
              Sample.bob (Sample.paris 3) store_reachable paris_in_store
              eq_refl Hne) as (Hlist & Hget & Hgen & _).
  split; [exact Hlist|]. split; [exact Hget|]. apply Hgen.
Defined.

(** C8 at work: Carol registers. *)
Lemma email_uniqueness_witness :
  emails_unique
    (snd (@handle P 7
            (PostRegister
               (mkUserRegister (lit "carol@example.com") (lit "Carol")
                               (lit "s3cret"))
               (lit "u-carol") (lit "s3"))
            Sample.store)).
Proof.
  apply (@email_uniqueness_preserved P).
  unfold emails_unique. apply (bool_decide_unpack _).
  vm_compute. exact I.
Defined.





(** C10 at work: Alice owns 101 trips and is shown 100. *)
Lemma get_trips_truncated_witness :
  length (owned_trips Sample.alice Sample.crowded) = 101%nat
  /\ length (get_trips Sample.alice Sample.crowded) = 100%nat
  /\ drop 100 (owned_trips Sample.alice Sample.crowded) <> [].
Proof.
  split; [vm_compute; reflexivity|].
  destruct (@get_trips_truncated Sample.alice Sample.crowded)
    as (_ & _ & Hmore).
  destruct Hmore as (Hlen & _ & Hrest).
  - apply Nat.ltb_lt. vm_compute. reflexivity.
  - split; assumption.
Defined.

End Worked.

(** * Further properties of the handlers *)

(** ** Accounts and tokens *)

Section AccountsMore.

Context `{Platform}.

Lemma find_one_snoc {A} (f : A -> bool) (l : list A) (y : A) :
  find_one f l = None -> f y = true -> find_one f (insert_one y l) = Some y.
Proof.
  intros Hnone Hy. unfold insert_one.
  induction l as [|a l IH]; simpl in *.
  - by rewrite Hy.
  - destruct (f a); [discriminate|]. by apply IH.
Qed.

Lemma find_one_by_key {A} (key : A -> pystr) (l : list A) (u : A) :
  NoDup (key <$> l) -> u ∈ l ->
  find_one (fun x => str_eq (key u) (key x)) l = Some u.
Proof.
  induction l as [|a l IH]; intros Hnd Hin.
  - by apply elem_of_nil in Hin.
  - rewrite fmap_cons in Hnd. apply list.NoDup_cons in Hnd as [Ha Hnd].
    simpl. apply elem_of_cons in Hin as [->|Hin].
    + by rewrite str_eq_refl.
    + destruct (str_eq (key u) (key a)) eqn:E; [|by apply IH].
      apply str_eq_true in E. destruct Ha. rewrite <- E.
      by apply list_elem_of_fmap_2.
Qed.

(** What a successful registration did. *)
Lemma register_accepted now new_id salt user_data d tr d' :
  register now new_id salt user_data d = (inr tr, d') ->
  exists hashed,
    hash_password salt (reg_password user_data) = inr hashed
    /\ find_one (fun u => str_eq (u_email u) (reg_email user_data)) (users d)
       = None
    /\ d' = mkDb (insert_one
                    (mkUser new_id (reg_email user_data) (reg_name user_data)
                            hashed now)
                    (users d))
                 (trips d) (itineraries d)
    /\ tr = mkTokenResponse
              (create_jwt_token now new_id (reg_email user_data))
              (public_view new_id (reg_email user_data) (reg_name user_data)).
Proof.
  unfold register.
  destruct (find_one _ (users d)); [discriminate|].
  destruct (hash_password _ _) as [e|hashed]; [discriminate|].
  destruct (inserting _) as [e|[]]; [discriminate|].
  intros [= <- <-]. exists hashed. by repeat split.
Qed.

(** The token issued at [now] for [id], looked at at [now']. *)
Lemma issued_token_decodes `{!JwtContract} now now' id email :
  decode_jwt_token now' (create_jwt_token now id email)
  = if now + JWT_EXPIRATION_HOURS * 3600 <=? now'
    then inl (HTTPException 401 (lit "Token has expired"))
    else inr (<["user_id"%string := ClaimStr id]>
                (<["email"%string := ClaimStr email]>
                   (<["exp"%string :=
                        ClaimInt (now + JWT_EXPIRATION_HOURS * 3600)]> ∅))).
Proof.
  unfold decode_jwt_token, create_jwt_token, timedelta_hours.
  rewrite (jwt_decode_encode now' _ _ _ (now + JWT_EXPIRATION_HOURS * 3600))
    by (by simplify_map_eq).
  by destruct (_ <=? _).
Qed.

(** X1: a registration that succeeded can be followed by a login with
    the same email and password, which answers with a token for the new
    user and the same public view. *)
Theorem register_then_login `{!PwdContract} now now2 new_id salt user_data
    d tr d' :
  register now new_id salt user_data d = (inr tr, d') ->
  login now2 (mkUserLogin (reg_email user_data) (reg_password user_data)) d'
  = inr (mkTokenResponse
           (create_jwt_token now2 new_id (reg_email user_data))
           (user tr)).
Proof.
  intros Hreg.
  apply register_accepted in Hreg as (hashed & Hhash & Hfree & -> & ->).
  unfold login. simpl.
  rewrite (find_one_snoc _ _ _ Hfree) by apply str_eq_refl.
  simpl. unfold verify_password. unfold hash_password in Hhash.
  by rewrite (pwd_verify_hash _ _ _ Hhash).
Qed.

(** X2: the token a registration returns, presented as bearer
    credentials before it expires, authenticates the request as the new
    user, and GET /auth/me answers with the public view the registration
    returned. *)
Theorem registered_token_authenticates `{!JwtContract} now now' new_id salt
    user_data d tr d' authorization :
  register now new_id salt user_data d = (inr tr, d') ->
  new_id ∉ u_id <$> users d ->
  security authorization = inr (token tr) ->
  now' < now + JWT_EXPIRATION_HOURS * 3600 ->
  exists hashed,
    hash_password salt (reg_password user_data) = inr hashed
    /\ authenticate now' authorization d'
       = inr (mkUser new_id (reg_email user_data) (reg_name user_data)
                     hashed now)
    /\ handle now' (GetMe authorization) d' = (inr (RUser (user tr)), d').
Proof.
  intros Hreg Hfresh Hsec Hlive.
  apply register_accepted in Hreg as (hashed & Hhash & _ & -> & ->).
  simpl in Hsec. exists hashed. split; [exact Hhash|].
  assert (Hauth : authenticate now' authorization
                    (mkDb (insert_one
                             (mkUser new_id (reg_email user_data)
                                (reg_name user_data) hashed now)
                             (users d)) (trips d) (itineraries d))
                  = inr (mkUser new_id (reg_email user_data)
                           (reg_name user_data) hashed now)).
  { unfold authenticate. rewrite Hsec. simpl.
    unfold get_current_user. rewrite issued_token_decodes.
    destruct (_ <=? _) eqn:E; [lia|]. simpl.
    rewrite lookup_insert_eq. simpl.
    rewrite find_one_snoc; [reflexivity| |apply str_eq_refl].
    apply find_one_None. intros u Hu. apply str_eq_false.
    intros ->. apply Hfresh. by apply list_elem_of_fmap_2. }
  split; [exact Hauth|]. simpl. by rewrite Hauth.
Qed.

(** X3: where user ids are unique, the token a login returns, presented
    before it expires, authenticates the request as the user whose email
    and password were given. *)
Theorem login_token_authenticates `{!JwtContract} now now' credentials d tr
    authorization :
  NoDup (u_id <$> users d) ->
  login now credentials d = inr tr ->
  security authorization = inr (token tr) ->
  now' < now + JWT_EXPIRATION_HOURS * 3600 ->
  exists u,
    authenticate now' authorization d = inr u
    /\ u ∈ users d
    /\ u_email u = login_email credentials
    /\ verify_password (login_password credentials) (u_password_hash u)
       = inr true
    /\ get_me u = user tr.
Proof.
  intros Hnd Hlogin Hsec Hlive. unfold login in Hlogin.
  destruct (find_one _ (users d)) as [u|] eqn:Hfind; [|discriminate].
  apply find_one_Some in Hfind as [Hin Hmail].
  apply str_eq_true in Hmail.
  destruct (verify_password _ _) as [msg|[]] eqn:Hv; try discriminate.
  simpl in Hlogin. injection Hlogin as <-. simpl in Hsec.
  exists u. split; [|by repeat split].
  unfold authenticate. rewrite Hsec. simpl.
  unfold get_current_user. rewrite issued_token_decodes.
  destruct (_ <=? _) eqn:E; [lia|]. simpl.
  rewrite lookup_insert_eq. simpl.
  by rewrite (find_one_by_key u_id (users d) u Hnd Hin).
Qed.


End AccountsMore.

(** ** The store across requests *)

Section StoreMore.

Context `{Platform}.

Lemma get_current_user_stored now token d u :
  get_current_user now token d = inr u -> u ∈ users d.
Proof.
  unfold get_current_user.
  destruct (decode_jwt_token now token) as [|payload]; [discriminate|].
  simpl. destruct (payload !! _) as [uid|]; [|discriminate].
  destruct (find_one _ (users d)) as [x|] eqn:E; [|discriminate].
  intros [= <-]. by apply find_one_Some in E as [Hin _].
Qed.

Lemma authenticate_stored now authorization d u :
  authenticate now authorization d = inr u -> u ∈ users d.
Proof.
  unfold authenticate. destruct (security authorization); [discriminate|].
  apply get_current_user_stored.
Qed.

(** What a generation that succeeded did. *)
Lemma generate_itinerary_accepted now new_id llm trip_id current_user d g d' :
  generate_itinerary now new_id llm trip_id current_user d = (inr g, d') ->
  exists trip response members,
    trip ∈ trips d /\ t_id trip = trip_id
    /\ t_user_id trip = u_id current_user
    /\ llm = inr response
    /\ parse_response response = inr (JObject members)
    /\ g = mkGenerated new_id trip_id (JObject members)
    /\ d' = mkDb (users d) (trips d)
                 (insert_one
                    (mkItinerary new_id trip_id (u_id current_user) members
                                 now)
                    (itineraries d)).
Proof.
  unfold generate_itinerary.
  destruct (find_one _ (trips d)) as [trip|] eqn:E; [|discriminate].
  apply find_one_Some in E as [Hin Hmatch].
  apply andb_true_iff in Hmatch as [Hid Huser].
  apply str_eq_true in Hid. apply str_eq_true in Huser.
  destruct llm as [e|response]; [discriminate|]. simpl.
  destruct (parse_response response) as [e|v] eqn:Hp; [discriminate|].
  simpl. destruct v; try discriminate. simpl.
  destruct (inserting _) as [e|[]]; [discriminate|]. simpl.
  intros [= <- <-]. exists trip, response, members. by repeat split.
Qed.

Lemma generate_itinerary_rejected now new_id llm trip_id current_user d e d' :
  generate_itinerary now new_id llm trip_id current_user d = (inl e, d') ->
  d' = d.
Proof.
  unfold generate_itinerary.
  destruct (find_one _ (trips d)); [|by intros [= _ <-]].
  destruct llm as [|response]; [by intros [= _ <-]|]. simpl.
  destruct (parse_response response) as [|v]; [by intros [= _ <-]|].
  simpl. destruct v; simpl; try by intros [= _ <-].
  destruct (inserting _) as [|[]]; simpl; [by intros [= _ <-]|discriminate].
Qed.

(** What [create_trip] did, either way. *)
Lemma create_trip_accepted now new_id trip_data current_user d trip d' :
  create_trip now new_id trip_data current_user d = (inr trip, d') ->
  t_id trip = new_id /\ t_user_id trip = u_id current_user
  /\ d' = mkDb (users d) (insert_one trip (trips d)) (itineraries d).
Proof.
  unfold create_trip. destruct (inserting _) as [|[]]; [discriminate|].
  intros [= <- <-]. by repeat split.
Qed.

Lemma create_trip_rejected now new_id trip_data current_user d e d' :
  create_trip now new_id trip_data current_user d = (inl e, d') -> d' = d.
Proof.
  unfold create_trip. destruct (inserting _) as [|[]]; [|discriminate].
  by intros [= _ <-].
Qed.

Lemma register_rejected now new_id salt user_data d e d' :
  register now new_id salt user_data d = (inl e, d') -> d' = d.
Proof.
  unfold register. destruct (find_one _ (users d)); [by intros [= _ <-]|].
  destruct (hash_password _ _); [by intros [= _ <-]|].
  destruct (inserting _) as [|[]]; [by intros [= _ <-]|discriminate].
Qed.

(** A request appends at most one record, to one collection. *)
Lemma handle_appends now r d :
  exists us ts its,
    users (snd (handle now r d)) = users d ++ us
    /\ trips (snd (handle now r d)) = trips d ++ ts
    /\ itineraries (snd (handle now r d)) = itineraries d ++ its
    /\ (length us + length ts + length its <= 1)%nat.
Proof.
  assert (Hstay : forall d0 : db, exists us ts its,
             users d0 = users d0 ++ us /\ trips d0 = trips d0 ++ ts
             /\ itineraries d0 = itineraries d0 ++ its
             /\ (length us + length ts + length its <= 1)%nat).
  { intros d0. exists [], [], []. rewrite !app_nil_r. simpl.
    repeat split; lia. }
  destruct r; simpl.
  - destruct (register now new_id salt user_data d) as [[e|tr] d'] eqn:E;
      simpl.
    + apply register_rejected in E as ->. apply Hstay.
    + apply register_accepted in E as (hashed & _ & _ & -> & _). simpl.
      eexists [_], [], []. rewrite !app_nil_r. simpl. repeat split; lia.
  - apply Hstay.
  - destruct (authenticate _ _ _); apply Hstay.
  - destruct (authenticate _ _ _) as [|cu]; [apply Hstay|].
    destruct (validate_TripCriteriaCreate body) as [|td]; [apply Hstay|].
    destruct (create_trip now new_id td cu d) as [[e|trip] d'] eqn:E; simpl.
    + apply create_trip_rejected in E as ->. apply Hstay.
    + apply create_trip_accepted in E as (_ & _ & ->). simpl.
      eexists [], [_], []. rewrite !app_nil_r. simpl. repeat split; lia.
  - destruct (authenticate _ _ _); apply Hstay.
  - destruct (authenticate _ _ _) as [|cu]; [apply Hstay|].
    destruct (generate_itinerary now new_id llm trip_id cu d)
      as [[e|g] d'] eqn:E; simpl.
    + apply generate_itinerary_rejected in E as ->. apply Hstay.
    + apply generate_itinerary_accepted in E
        as (trip & response & members & _ & _ & _ & _ & _ & _ & ->).
      simpl. eexists [], [], [_]. rewrite !app_nil_r. simpl.
      repeat split; lia.
  - destruct (authenticate _ _ _); apply Hstay.
Qed.


(** X6: no request removes or rewrites a stored record: each collection
    after a request is the collection before it followed by what was
    appended, and at most one record is appended in all. *)
Theorem store_append_only now r d :
  exists us ts its,
    users (snd (handle now r d)) = users d ++ us
    /\ trips (snd (handle now r d)) = trips d ++ ts
    /\ itineraries (snd (handle now r d)) = itineraries d ++ its
    /\ (length us + length ts + length its <= 1)%nat.
Proof. apply handle_appends. Qed.

Lemma find_one_app_Some {A} (f : A -> bool) (l k : list A) x :
  find_one f l = Some x -> find_one f (l ++ k) = Some x.
Proof.
  induction l as [|a l IH]; simpl; [discriminate|].
  destruct (f a); [done|exact IH].
Qed.


Lemma handle_owners_exist now r d :
  owners_exist d -> owners_exist (snd (handle now r d)).
Proof.
  intros [Ht Hi].
  assert (Hgrow : forall user_obj,
    owners_exist (mkDb (insert_one user_obj (users d)) (trips d)
                       (itineraries d))).
  { intros user_obj. split; simpl.
    - intros t Hin. destruct (Ht t Hin) as (u & Hu & Hid).
      exists u. split; [|exact Hid]. apply elem_of_app. by left.
    - intros i Hin. destruct (Hi i Hin) as (u & Hu & Hid).
      exists u. split; [|exact Hid]. apply elem_of_app. by left. }
  destruct r; simpl.
  - destruct (register now new_id salt user_data d) as [[e|tr] d'] eqn:E;
      simpl.
    + apply register_rejected in E as ->. by split.
    + apply register_accepted in E as (hashed & _ & _ & -> & _). apply Hgrow.
  - by split.
  - by destruct (authenticate _ _ _).
  - destruct (authenticate _ _ _) as [|cu] eqn:Ha; [by split|].
    destruct (validate_TripCriteriaCreate body) as [|td]; [by split|].
    destruct (create_trip now new_id td cu d) as [[e|trip] d'] eqn:E; simpl.
    { apply create_trip_rejected in E as ->. by split. }
    apply create_trip_accepted in E as (_ & Howner & ->).
    split; simpl; [|exact Hi].
    intros t Hin. apply elem_of_app in Hin as [Hin|Hin]; [by apply Ht|].
    apply list_elem_of_singleton in Hin as ->.
    exists cu. split; [|by rewrite Howner]. by apply authenticate_stored in Ha.
  - by destruct (authenticate _ _ _).
  - destruct (authenticate _ _ _) as [|cu] eqn:Ha; [by split|].
    destruct (generate_itinerary now new_id llm trip_id cu d)
      as [[e|g] d'] eqn:E; simpl.
    + apply generate_itinerary_rejected in E as ->. by split.
    + apply generate_itinerary_accepted in E
        as (trip & response & members & _ & _ & _ & _ & _ & _ & ->).
      split; simpl; [exact Ht|].
      intros i Hin. apply elem_of_app in Hin as [Hin|Hin]; [by apply Hi|].
      apply list_elem_of_singleton in Hin as ->. simpl.
      exists cu. split; [|reflexivity]. by apply authenticate_stored in Ha.
  - by destruct (authenticate _ _ _).
Qed.

(** X8: in every store the service reaches, each trip and each
    itinerary is owned by a stored user. *)
Theorem reachable_owners_exist d : reachable d -> owners_exist d.
Proof.
  induction 1 as [|now r d Hd IH Hfresh].
  - split; intros x Hx; by apply elem_of_nil in Hx.
  - by apply handle_owners_exist.
Qed.

(** X9: a protected route answers with success only for a request that
    authenticated as a stored user, and what it answers is that user's:
    the user's own view, trips and itineraries of that user, nothing of
    anyone else. *)
Theorem responses_scoped_to_caller now r authorization d resp d' :
  protected r = Some authorization ->
  handle now r d = (inr resp, d') ->
  exists current_user,
    authenticate now authorization d = inr current_user
    /\ current_user ∈ users d
    /\ scoped_to current_user d resp.
Proof.
  intros Hp Hh.
  destruct r; simpl in Hp; try discriminate; injection Hp as ->;
    simpl in Hh;
    destruct (authenticate now authorization d) as [|cu] eqn:Ha;
    try discriminate;
    exists cu; (split; [reflexivity|]);
    (split; [by apply authenticate_stored in Ha|]).
  - injection Hh as <- _. by repeat split.
  - destruct (validate_TripCriteriaCreate body) as [|td]; [discriminate|].
    destruct (create_trip now new_id td cu d) as [[e|trip] d0] eqn:E;
      simpl in Hh; [discriminate|].
    injection Hh as <- _. simpl.
    by apply create_trip_accepted in E as (_ & Howner & _).
  - injection Hh as <- _. simpl. intros t Hin.
    unfold get_trips, find_to_list in Hin.
    apply (subseteq_take 100) in Hin.
    apply elem_of_filter_bool in Hin as [Hin Hmine].
    split; [exact Hin|]. by apply str_eq_true.
  - destruct (generate_itinerary now new_id llm trip_id cu d)
      as [[e|g] d0] eqn:E; simpl in Hh; [discriminate|].
    unfold rendered in Hh.
    destruct (render_error (g_itinerary g)); [discriminate|].
    injection Hh as <- _.
    apply generate_itinerary_accepted in E
      as (trip & response & members & Hin & Hid & Huser & _ & _ & -> & _).
    simpl. by exists trip.
  - unfold get_itinerary in Hh.
    destruct (find_one _ (itineraries d)) as [i|] eqn:E; [|discriminate].
    simpl in Hh. unfold rendered in Hh.
    destruct (render_error _); [discriminate|].
    injection Hh as <- _. simpl.
    apply find_one_Some in E as [Hin Hmatch].
    apply andb_true_iff in Hmatch as [_ Huser].
    split; [exact Hin|]. by apply str_eq_true.
Qed.

End StoreMore.

(** ** Trips *)

Section TripsMore.

Context `{Platform}.

Lemma filter_sublist {A} (f : A -> bool) (l : list A) :
  List.filter f l `sublist_of` l.
Proof.
  induction l as [|a l IH]; simpl; [constructor|].
  destruct (f a); by constructor.
Qed.

Lemma owned_trips_snoc current_user d trip :
  owned_trips current_user
    (mkDb (users d) (insert_one trip (trips d)) (itineraries d))
  = owned_trips current_user d
    ++ (if str_eq (t_user_id trip) (u_id current_user) then [trip] else []).
Proof.
  unfold owned_trips, insert_one. simpl. rewrite List.filter_app. simpl.
  by destruct (str_eq _ _).
Qed.

(** X10: after a trip was created, the creator's trip list is the first
    100 of the trips owned before followed by the new one: the new trip
    is listed last while fewer than 100 were owned, and not listed at all
    from then on; the trip list of any other user is unchanged. *)
Theorem create_trip_then_get_trips now new_id trip_data current_user d
    trip d' :
  create_trip now new_id trip_data current_user d = (inr trip, d') ->
  get_trips current_user d'
  = take 100 (owned_trips current_user d ++ [trip])
  /\ ((length (owned_trips current_user d) < 100)%nat ->
      get_trips current_user d' = get_trips current_user d ++ [trip])
  /\ ((100 <= length (owned_trips current_user d))%nat ->
      get_trips current_user d' = get_trips current_user d)
  /\ (forall other, u_id other <> u_id current_user ->
        get_trips other d' = get_trips other d).
Proof.
  intros Hcreated.
  apply create_trip_accepted in Hcreated as (_ & Howner & ->).
  assert (Hget : forall u d0, get_trips u d0 = take 100 (owned_trips u d0))
    by reflexivity.
  rewrite !Hget, owned_trips_snoc.
  replace (str_eq (t_user_id trip) (u_id current_user)) with true
    by (symmetry; by apply str_eq_true).
  split; [reflexivity|]. split; [|split].
  - intros Hlt. rewrite (take_ge (owned_trips current_user d)) by lia.
    apply take_ge. rewrite length_app. simpl. lia.
  - intros Hge. by apply take_app_le.
  - intros other Hne. rewrite !Hget, owned_trips_snoc.
    replace (str_eq (t_user_id trip) (u_id other)) with false.
    + by rewrite app_nil_r.
    + symmetry. apply str_eq_false. congruence.
Qed.

(** X11: the trip list holds stored trips of the caller only, in store
    order, and all of them when the caller owns at most 100. *)
Theorem get_trips_own_in_order current_user d :
  get_trips current_user d `sublist_of` trips d
  /\ (forall t, t ∈ get_trips current_user d ->
        t_user_id t = u_id current_user)
  /\ ((length (owned_trips current_user d) <= 100)%nat ->
      forall t, t ∈ trips d -> t_user_id t = u_id current_user ->
                t ∈ get_trips current_user d).
Proof.
  unfold get_trips, find_to_list, owned_trips. split; [|split].
  - etrans; [apply sublist_take|apply filter_sublist].
  - intros t Hin. apply (subseteq_take 100) in Hin.
    apply elem_of_filter_bool in Hin as [_ Hmine]. by apply str_eq_true.
  - intros Hle t Hin Hmine. rewrite take_ge by exact Hle.
    apply elem_of_filter_bool. split; [exact Hin|]. by apply str_eq_true.
Qed.

Lemma literal_submitted {A} (table : list (string * A)) s a :
  literal table s = Some a -> submitted_as table s a.
Proof.
  unfold literal, submitted_as.
  induction table as [|[name b] table IH]; simpl; [discriminate|].
  destruct (bool_decide (lit name = s)) eqn:E.
  - simpl. intros [= <-]. apply bool_decide_eq_true in E.
    exists name. split; [by left|exact E].
  - intros Hfind. destruct (IH Hfind) as (n & Hin & Hn).
    exists n. split; [by right|exact Hn].
Qed.

(** X12: a created trip repeats the body it was made from: the six text
    fields and the number of days as submitted, each enumerated field the
    value listed under the submitted name, the clock reading as creation
    time; and it is appended to the trips. *)
Theorem created_trip_echoes_body now authorization body new_id d trip d' :
  handle now (PostTrips authorization body new_id) d = (inr (RTrip trip), d') ->
  t_location trip = b_location body
  /\ t_time_of_arrival trip = b_time_of_arrival body
  /\ t_time_of_departure trip = b_time_of_departure body
  /\ t_location_of_stay trip = b_location_of_stay body
  /\ t_check_in_datetime trip = b_check_in_datetime body
  /\ t_check_out_datetime trip = b_check_out_datetime body
  /\ b_number_of_days body = Some (t_number_of_days trip)
  /\ submitted_as trip_type_table (b_trip_type body) (t_trip_type trip)
  /\ submitted_as trip_vibe_table (b_trip_vibe body) (t_trip_vibe trip)
  /\ submitted_as hectic_level_table (b_hectic_level body)
                  (t_hectic_level trip)
  /\ submitted_as places_preference_table (b_places_preference body)
                  (t_places_preference trip)
  /\ t_created_at trip = now
  /\ trips d' = trips d ++ [trip].
Proof.
  simpl. destruct (authenticate _ _ _) as [|cu]; [discriminate|].
  unfold validate_TripCriteriaCreate.
  destruct (b_number_of_days body) as [n|]; [|discriminate]. simpl.
  destruct (trip_type_literal _) as [ty|] eqn:Ety; [|discriminate]. simpl.
  destruct (trip_vibe_literal _) as [vibe|] eqn:Evibe; [|discriminate].
  simpl.
  destruct (hectic_level_literal _) as [hectic|] eqn:Eh; [|discriminate].
  simpl.
  destruct (places_preference_literal _) as [places|] eqn:Ep;
    [|discriminate].
  simpl. unfold create_trip.
  destruct (inserting _) as [|[]]; [discriminate|].
  simpl. intros [= <- <-]. simpl.
  repeat (split; [reflexivity|]).
  split; [by apply literal_submitted|].
  split; [by apply literal_submitted|].
  split; [by apply literal_submitted|].
  split; [by apply literal_submitted|].
  by split.
Qed.

End TripsMore.

(** ** Itineraries *)

Section ItinerariesMore.

Context `{Platform}.

(** X13: for a trip of the caller and a reply that parses to a JSON
    object: when [insert_one] accepts the itinerary made from it, it is
    appended and answered, and a fetch for the trip then returns it if
    there was none before, and the one there was before otherwise; when
    [insert_one] raises, the request fails with 500 and nothing is
    stored. *)
Theorem generated_itinerary_fetched now new_id response members trip_id
    current_user d trip :
  trip ∈ trips d -> t_id trip = trip_id ->
  t_user_id trip = u_id current_user ->
  parse_response response = inr (JObject members) ->
  (bson_error
     (ItineraryDoc (mkItinerary new_id trip_id (u_id current_user) members
                                now)) = None ->
   generate_itinerary now new_id (inr response) trip_id current_user d
   = (inr (mkGenerated new_id trip_id (JObject members)),
      mkDb (users d) (trips d)
           (itineraries d
            ++ [mkItinerary new_id trip_id (u_id current_user) members now]))
   /\ (get_itinerary trip_id current_user d
         = inl (HTTPException 404 (lit "Itinerary not found")) ->
       get_itinerary trip_id current_user
         (snd (generate_itinerary now new_id (inr response) trip_id
                                  current_user d))
       = inr (mkItinerary new_id trip_id (u_id current_user) members now))
   /\ (forall old,
         get_itinerary trip_id current_user d = inr old ->
         get_itinerary trip_id current_user
           (snd (generate_itinerary now new_id (inr response) trip_id
                                    current_user d))
         = inr old))
  /\ (forall e,
        bson_error
          (ItineraryDoc (mkItinerary new_id trip_id (u_id current_user)
                                     members now)) = Some e ->
        generate_itinerary now new_id (inr response) trip_id current_user d
        = (inl (HTTPException 500
                  (lit "Failed to generate itinerary: " ++ e)), d)).
Proof.
  intros Hin Hid Huser Hparse.
  destruct (owned_trip_found trip_id current_user d trip Hin Hid Huser)
    as [t Ht].
  split.
  - intros Hstored.
    assert (Hgen :
      generate_itinerary now new_id (inr response) trip_id current_user d
      = (inr (mkGenerated new_id trip_id (JObject members)),
         mkDb (users d) (trips d)
              (itineraries d
               ++ [mkItinerary new_id trip_id (u_id current_user) members
                               now]))).
    { unfold generate_itinerary. rewrite Ht. simpl. rewrite Hparse. simpl.
      unfold inserting. rewrite Hstored. reflexivity. }
    rewrite Hgen. split; [reflexivity|]. cbn [snd].
    unfold get_itinerary. cbn [itineraries]. split.
    + destruct (find_one _ (itineraries d)) eqn:E; [discriminate|]. intros _.
      pose proof (find_one_snoc _ _
                    (mkItinerary new_id trip_id (u_id current_user) members
                                 now) E) as Hnew.
      unfold insert_one in Hnew. rewrite Hnew; [reflexivity|]. simpl.
      by rewrite !str_eq_refl.
    + intros old.
      destruct (find_one _ (itineraries d)) eqn:E; [|discriminate].
      by rewrite (find_one_app_Some _ _ _ _ E).
  - intros e Hraised. unfold generate_itinerary. rewrite Ht. simpl.
    rewrite Hparse. simpl. unfold inserting. by rewrite Hraised.
Qed.

(** X14: for a trip of the caller, a reply that parses to JSON that is
    no object (a list, a string, a number, null) fails the request with
    500 and stores nothing. *)
Theorem non_object_reply_rejected now new_id response v trip_id
    current_user d trip :
  trip ∈ trips d -> t_id trip = trip_id ->
  t_user_id trip = u_id current_user ->
  parse_response response = inr v ->
  (forall members, v <> JObject members) ->
  generate_itinerary now new_id (inr response) trip_id current_user d
  = (inl (HTTPException 500
            (lit "Failed to generate itinerary: " ++ dict_type_error v)), d).
Proof.
  intros Hin Hid Huser Hparse Hv.
  destruct (owned_trip_found trip_id current_user d trip Hin Hid Huser)
    as [t Ht].
  unfold generate_itinerary. rewrite Ht. simpl. rewrite Hparse. simpl.
  destruct v; try reflexivity. by destruct (Hv members).
Qed.

End ItinerariesMore.

(** ** The parser on other replies *)

Section ParserMore.

Context `{JsonContract}.

Lemma strip_blank_padded w0 x w3 :
  blank w0 -> blank w3 -> strip (w0 ++ x ++ w3) = strip x.
Proof.
  unfold blank, strip. intros Hw0 Hw3.
  induction Hw0 as [|c w0 Hc _ IH]; simpl.
  - induction w3 as [|c w3 IH] using rev_ind; [by rewrite app_nil_r|].
    apply Forall_app in Hw3 as [Hw3 Hc]. rewrite Forall_singleton in Hc.
    rewrite app_assoc, strip_with_snoc by exact Hc. by apply IH.
  - by rewrite strip_with_cons.
Qed.

Lemma strip_fenced tagged s : strip (fenced tagged s) = fenced tagged s.
Proof.
  destruct (fenced_shape tagged s) as [mid ->]. by apply strip_with_fixed.
Qed.

Lemma strip_code_fence_ext a b :
  strip a = strip b -> strip_code_fence a = strip_code_fence b.
Proof. intros Heq. unfold strip_code_fence. by rewrite Heq. Qed.

(** X15: blank space before the opening fence and after the closing one
    (a final newline, say) does not matter: the fenced document still
    parses to the structure of the bare document. *)
Theorem parse_response_fenced_padded w0 w3 s v tagged :
  blank w0 -> blank w3 ->
  json_loads s = inr v ->
  parse_response (w0 ++ fenced tagged s ++ w3) = inr v.
Proof.
  intros Hw0 Hw3 Hs.
  pose proof (strip_blank_padded w0 (fenced tagged s) w3 Hw0 Hw3) as Hstrip.
  unfold parse_response.
  destruct (json_loads (w0 ++ fenced tagged s ++ w3)) as [e|v'] eqn:E.
  - rewrite (strip_code_fence_ext _ (fenced tagged s)) by exact Hstrip.
    rewrite strip_code_fence_fenced. by apply json_loads_strip.
  - exfalso. apply json_loads_strip in E.
    rewrite Hstrip, strip_fenced in E.
    destruct (json_loads_fenced_fails tagged s) as [e He]. congruence.
Qed.

Lemma rstrip_with_app_keep P p s :
  rstrip_with P s <> [] -> rstrip_with P (p ++ s) = p ++ rstrip_with P s.
Proof.
  induction s as [|x s IH] using rev_ind; [done|].
  rewrite app_assoc, !rstrip_with_snoc.
  destruct (P x); [exact IH|]. intros _. by rewrite app_assoc.
Qed.

Lemma endswith_fence_other x c :
  c <> backtick -> endswith fence (x ++ [c]) = false.
Proof.
  intros Hc. apply bool_decide_eq_false. intros [k Hk].
  change fence with ([backtick; backtick] ++ [backtick]) in Hk.
  rewrite app_assoc in Hk. apply app_inj_tail in Hk as [_ ->]. by apply Hc.
Qed.

(** X16: a reply that opens a code fence, with or without the tag, and
    never closes it still parses to the structure of the document. *)
Theorem parse_response_unterminated `{!JsonTextContract} s v tagged :
  json_loads s = inr v ->
  parse_response (unterminated tagged s) = inr v.
Proof.
  intros Hs. pose proof (json_loads_rstrip s v Hs) as Hr.
  set (body := rstrip_with isspace s) in *.
  assert (Hne : body <> []).
  { intros Hnil. rewrite Hnil in Hr. by apply json_loads_empty in Hr. }
  assert (Hend : endswith fence (newline :: body) = false).
  { destruct body as [|c body'] using rev_ind; [done|].
    change (newline :: body' ++ [c]) with ((newline :: body') ++ [c]).
    apply endswith_fence_other. intros ->.
    by apply json_loads_no_final_backtick in Hr. }
  assert (Hshape : unterminated tagged s
                   = (if tagged then fence_json else fence)
                     ++ newline :: s).
  { unfold unterminated. by destruct tagged. }
  assert (Hstrip : strip (unterminated tagged s)
                   = (if tagged then fence_json else fence)
                     ++ newline :: body).
  { rewrite Hshape. unfold strip, strip_with.
    assert (Hl : lstrip_with isspace
                   ((if tagged then fence_json else fence) ++ newline :: s)
                 = (if tagged then fence_json else fence) ++ newline :: s)
      by (by destruct tagged).
    rewrite Hl.
    change (newline :: s) with ([newline] ++ s).
    rewrite app_assoc, rstrip_with_app_keep by exact Hne.
    by rewrite <- app_assoc. }
  unfold parse_response.
  destruct (json_loads (unterminated tagged s)) as [e|v'] eqn:E.
  - unfold strip_code_fence. rewrite Hstrip.
    assert (Hopen :
      (let c1 := (if tagged then fence_json else fence) ++ newline :: body in
       let c2 := if startswith fence_json c1 then slice_from 7 c1 else c1 in
       if startswith fence c2 then slice_from 3 c2 else c2)
      = newline :: body).
    { destruct tagged; rewrite ?fence_json_codes, ?fence_codes; simpl;
        by rewrite ?startswith_cons, ?startswith_nil. }
    cbv zeta in Hopen. rewrite Hopen, Hend.
    change (strip (newline :: body)) with (strip_with isspace (newline :: body)).
    rewrite strip_with_cons by reflexivity.
    by apply json_loads_strip.
  - exfalso. rewrite Hshape in E. destruct tagged;
      rewrite ?fence_json_codes, ?fence_codes in E; simpl in E;
      by destruct (json_loads_first _ _ _ E) as [Hb _].
Qed.

End ParserMore.

(** ** The sample platform meets the further contracts *)

Section SampleContractsMore.

Lemma sample_pwd_contract : @PwdContract Sample.platform.
Proof.
  split. intros salt password hashed.
  change (@pwd_context_hash Sample.platform) with Sample.sample_hash.
  change (@pwd_context_verify Sample.platform) with Sample.sample_check.
  unfold Sample.sample_hash, Sample.sample_check.
  destruct (bool_decide (0%N ∈ password)); [discriminate|].
  intros [= <-]. f_equal. apply endswith_app.
Qed.


Lemma sample_json_text_contract : @JsonTextContract Sample.platform.
Proof.
  split; change (@json_loads Sample.platform) with Sample.sample_loads.
  - intros v Hv. vm_compute in Hv. discriminate.
  - intros s v Hs. apply sample_loads_valid in Hs.
    unfold strip_with in Hs.
    rewrite lstrip_with_snoc_keep, rstrip_with_snoc in Hs by reflexivity.
    change (json_ws backtick) with false in Hs.
    change (lit "{}") with ([123%N] ++ [125%N]) in Hs.
    change (lit "null") with ([110; 117; 108]%N ++ [108%N]) in Hs.
    destruct Hs as [Hs|Hs]; apply app_inj_tail in Hs as [_ Hc];
      discriminate.
Qed.

End SampleContractsMore.

(** ** Further worked requests *)

Section WorkedMore.

Local Abbreviation P := Sample.platform.
Local Abbreviation carol_token :=
  (@create_jwt_token Sample.platform 7 (lit "u-carol")
                     (lit "carol@example.com")).
Local Abbreviation carol_view :=
  (mkUserView (lit "u-carol") (lit "carol@example.com") (lit "Carol")).
Local Abbreviation with_carol :=
  (mkDb [Sample.alice; Sample.bob; SampleMore.carol] [Sample.paris 3] []).

Lemma carol_registers :
  @register P 7 (lit "u-carol") (lit "s3") SampleMore.carol_form Sample.store
  = (inr (mkTokenResponse carol_token carol_view), with_carol).
Proof. vm_compute. reflexivity. Qed.

(** X1 at work: Carol registers, then logs in. *)
Lemma register_then_login_witness :
  @login P 8 (mkUserLogin (lit "carol@example.com") (lit "s3cret")) with_carol
  = inr (mkTokenResponse
           (@create_jwt_token P 8 (lit "u-carol") (lit "carol@example.com"))
           carol_view).
Proof.
  apply (@register_then_login P sample_pwd_contract 7 8 (lit "u-carol")
           (lit "s3") SampleMore.carol_form Sample.store
           (mkTokenResponse carol_token carol_view) with_carol
           carol_registers).
Defined.

(** X2 at work: Carol presents the token her registration returned. *)
Lemma registered_token_witness :
  @authenticate P 100 (Sample.bearer carol_token) with_carol
  = inr SampleMore.carol
  /\ @handle P 100 (GetMe (Sample.bearer carol_token)) with_carol
     = (inr (RUser carol_view), with_carol).
Proof.
  destruct (@registered_token_authenticates P sample_jwt_contract 7 100
              (lit "u-carol") (lit "s3") SampleMore.carol_form Sample.store
              (mkTokenResponse carol_token carol_view) with_carol
              (Sample.bearer carol_token) carol_registers)
    as (hashed & Hhash & Hauth & Hme).
  - apply (bool_decide_unpack _). vm_compute. exact I.
  - vm_compute. reflexivity.
  - change (@JWT_EXPIRATION_HOURS P) with 720. lia.
  - vm_compute in Hhash. injection Hhash as <-.
    split; [exact Hauth|exact Hme].
Defined.

(** X3 at work: Alice logs in and presents the token. *)
Lemma login_token_witness :
  exists u,
    @authenticate P 100 (Sample.bearer Sample.alice_token) Sample.store
    = inr u
    /\ u ∈ users Sample.store
    /\ u_email u = lit "alice@example.com"
    /\ @verify_password P (lit "pw123456") (u_password_hash u) = inr true
    /\ get_me u
       = mkUserView (lit "u-alice") (lit "alice@example.com") (lit "Alice").
Proof.
  apply (@login_token_authenticates P sample_jwt_contract 0 100
           (mkUserLogin (lit "alice@example.com") (lit "pw123456"))
           Sample.store
           (mkTokenResponse Sample.alice_token
              (mkUserView (lit "u-alice") (lit "alice@example.com")
                          (lit "Alice")))
           (Sample.bearer Sample.alice_token)).
  - apply (bool_decide_unpack _). vm_compute. exact I.
  - vm_compute. reflexivity.
  - vm_compute. reflexivity.
  - change (@JWT_EXPIRATION_HOURS P) with 720. lia.
Defined.




(** X8 at work: the store reached by the sample journey. *)
Lemma reachable_owners_witness : owners_exist Sample.store.
Proof. apply (@reachable_owners_exist P Sample.store store_reachable). Defined.

(** X9 at work: Alice lists her trips. *)
Lemma responses_scoped_witness :
  exists current_user,
    @authenticate P 9 (Sample.bearer Sample.alice_token) Sample.store
    = inr current_user
    /\ current_user ∈ users Sample.store
    /\ scoped_to current_user Sample.store (RTrips [Sample.paris 3]).
Proof.
  apply (@responses_scoped_to_caller P 9
           (GetTrips (Sample.bearer Sample.alice_token))
           (Sample.bearer Sample.alice_token) Sample.store
           (RTrips [Sample.paris 3]) Sample.store).
  - reflexivity.
  - vm_compute. reflexivity.
Defined.

End WorkedMore.

Section WorkedTrips.

Local Abbreviation P := Sample.platform.
Local Abbreviation rome :=
  (mkTripCriteriaCreate (lit "Rome") (lit "2026-03-01T10:00")
     (lit "2026-03-04T17:00") (lit "Trastevere") (lit "2026-03-01T15:00")
     (lit "2026-03-04T10:00") 3 solo relaxing moderate mainstream).

(** X10 at work: Alice, who owns 100 trips, creates one more and does
    not see it in her list. *)
Lemma create_then_list_witness :
  @get_trips Sample.alice
     (snd (@create_trip P 9 (lit "t-rome") rome Sample.alice SampleMore.full))
  = @get_trips Sample.alice SampleMore.full
  /\ length (trips (snd (@create_trip P 9 (lit "t-rome") rome Sample.alice
                                      SampleMore.full))) = 101%nat.
Proof.
  split.
  - apply (proj1 (proj2 (proj2 (@create_trip_then_get_trips P 9
             (lit "t-rome") rome Sample.alice SampleMore.full
             (mkTripCriteria (lit "t-rome") (lit "u-alice") (lit "Rome")
                (lit "2026-03-01T10:00") (lit "2026-03-04T17:00")
                (lit "Trastevere") (lit "2026-03-01T15:00")
                (lit "2026-03-04T10:00") 3 solo relaxing moderate mainstream
                9)
             (snd (@create_trip P 9 (lit "t-rome") rome Sample.alice
                                SampleMore.full))
             ltac:(vm_compute; reflexivity))))).
    apply Nat.leb_le. vm_compute. reflexivity.
  - vm_compute. reflexivity.
Defined.

(** X11 at work: Alice's trip to Paris is in her list. *)
Lemma get_trips_own_witness :
  Sample.paris 3 ∈ @get_trips Sample.alice Sample.store.
Proof.
  apply (proj2 (proj2 (@get_trips_own_in_order Sample.alice Sample.store))).
  - apply Nat.leb_le. vm_compute. reflexivity.
  - by left.
  - reflexivity.
Defined.

(** X12 at work: the trip made from the Paris body. *)
Lemma created_trip_echo_witness :
  t_location (Sample.paris 3) = lit "Paris"
  /\ b_number_of_days (Sample.paris_body (Some 3)) = Some 3
  /\ submitted_as trip_type_table (lit "couple") couple
  /\ submitted_as places_preference_table (lit "balanced") balanced.
Proof.
  destruct (@created_trip_echoes_body P 5
              (Sample.bearer Sample.alice_token) (Sample.paris_body (Some 3))
              (lit "t-paris") Sample.accounts (Sample.paris 3) Sample.store)
    as (Hloc & _ & _ & _ & _ & _ & Hdays & Hty & _ & _ & Hpl & _).
  - vm_compute. reflexivity.
  - refine (conj Hloc (conj Hdays (conj Hty Hpl))).
Defined.

(** X13 at work: the first itinerary for Alice's trip. *)
Lemma generated_fetched_witness :
  @generate_itinerary P 9 (lit "i-1") (inr (lit "{}")) (lit "t-paris")
                      Sample.alice Sample.store
  = (inr (mkGenerated (lit "i-1") (lit "t-paris") (JObject [])),
     SampleMore.planned)
  /\ @get_itinerary (lit "t-paris") Sample.alice
       (snd (@generate_itinerary P 9 (lit "i-1") (inr (lit "{}"))
               (lit "t-paris") Sample.alice Sample.store))
     = inr SampleMore.first_plan.
Proof.
  destruct (@generated_itinerary_fetched P 9 (lit "i-1") (lit "{}") []
              (lit "t-paris") Sample.alice Sample.store (Sample.paris 3)
              paris_in_store eq_refl eq_refl)
    as (Hstored & _).
  - vm_compute. reflexivity.
  - destruct Hstored as (Hgen & Hnew & _).
    + vm_compute. reflexivity.
    + split; [exact Hgen|]. apply Hnew. vm_compute. reflexivity.
Defined.

(** X14 at work: the generator answers [null]. *)
Lemma non_object_reply_witness :
  @generate_itinerary P 9 (lit "i-1") (inr (lit "null")) (lit "t-paris")
                      Sample.alice Sample.store
  = (inl (HTTPException 500
            (lit "Failed to generate itinerary: "
             ++ lit "Input should be a valid dictionary")),
     Sample.store).
Proof.
  apply (@non_object_reply_rejected P 9 (lit "i-1") (lit "null") JNull
           (lit "t-paris") Sample.alice Sample.store (Sample.paris 3)
           paris_in_store eq_refl eq_refl).
  - vm_compute. reflexivity.
  - discriminate.
Defined.

(** X15 at work: a fenced document between a newline and a final
    blank line. *)
Lemma fenced_padded_witness :
  @parse_response P ([newline] ++ fenced true (lit "{}") ++ lit " " ++ [newline])
  = inr (JObject []).
Proof.
  apply (@parse_response_fenced_padded P sample_json_contract [newline]
           (lit " " ++ [newline]) (lit "{}") (JObject []) true).
  - by repeat constructor.
  - by repeat constructor.
  - vm_compute. reflexivity.
Defined.

(** X16 at work: an opening fence and no closing one. *)
Lemma unterminated_witness :
  @parse_response P (unterminated true (lit "{} ")) = inr (JObject [])
  /\ @parse_response P (unterminated false (lit "null")) = inr JNull.
Proof.
  split.
  - apply (@parse_response_unterminated P sample_json_contract
             sample_json_text_contract (lit "{} ") (JObject []) true).
    vm_compute. reflexivity.
  - apply (@parse_response_unterminated P sample_json_contract
             sample_json_text_contract (lit "null") JNull false).
    vm_compute. reflexivity.
Defined.

End WorkedTrips.
